(** * myko: the write-back buffer and the query aggregator of [server/server.go]

    A shallow embedding of [key], [parseKey], [batchWriter.Write],
    [batchWriter.flushIfNeeded], [eventSorter] and [Server.Query], with the
    Cassandra session, the clock and the UUID generator as an explicit world
    that the operations read and update. *)

From Stdlib Require Import ZArith Floats.PrimFloat Ascii String.
From Stdlib Require OrderedTypeEx.
From stdpp Require Import gmap strings list fin_maps sorting.

Local Open Scope string_scope.
Local Open Scope Z_scope.

(** ** Strings and aggregation keys *)

(** The separator that [key] writes between the four fields. *)
Definition sep : ascii := ":"%char.

(** [strings.Split(s, ":")]: the substrings of [s] between the occurrences of
    the one-byte separator, in order.  A string with [k] separators gives
    [k + 1] parts; the empty string gives one empty part. *)
Fixpoint Split (s : string) : list string :=
  match s with
  | EmptyString => [EmptyString]
  | String c r =>
      if Ascii.eqb c sep then EmptyString :: Split r
      else match Split r with
           | h :: t => String c h :: t
           | [] => [String c EmptyString]
           end
  end.

(** Whether [s] holds the separator. *)
Fixpoint has_sep (s : string) : bool :=
  match s with
  | EmptyString => false
  | String c r => Ascii.eqb c sep || has_sep r
  end.

(** [func key(origin, traceID, name, unit string) string]. *)
Definition key (origin traceID name unit : string) : string :=
  origin ++ ":" ++ traceID ++ ":" ++ name ++ ":" ++ unit.

(** [func parseKey(key string) (origin, traceID, name, unit string)]: the
    first four parts of the split.  Indexing [v[i]] past the end of the slice
    panics in Go: that is [None] here. *)
Definition parseKey (k : string) : option (string * string * string * string) :=
  let v := Split k in
  match v !! 0%nat, v !! 1%nat, v !! 2%nat, v !! 3%nat with
  | Some origin, Some traceID, Some name, Some unit =>
      Some (origin, traceID, name, unit)
  | _, _, _, _ => None
  end.

(** ** Protocol messages ([pb]) *)

(** An event object lives on the heap and is handled through a pointer
    ([*pb.Event]): a location.  The nil pointer and every pointer to no object
    are the locations outside the heap's domain. *)
Definition loc := positive.

(** [pb.Event]; [Value] is a [float64], here a binary64 float of the kernel. *)
Record Event := mkEvent { Name : string; Value : float; Unit : string }.

Module Entry.
(** [pb.Entry]; [Events] is a [[]*pb.Event]. *)
Record t := mk { Origin : string; TraceId : string; Events : list loc }.
End Entry.

Module QueryRequest.
(** [pb.QueryRequest]. *)
Record t := mk { TraceId : string; Origin : string; Event : string }.
End QueryRequest.

(** [pb.QueryResponse]. *)
Record QueryResponse := mkQueryResponse { Events : list Event }.

(** ** Results of calls *)

(** A Go [error] value, by its message. *)
Definition error := string.

(** How a call ends: it returns normally (with [err == nil] where it has an
    error result), it returns a non-nil error, or it panics. *)
Inductive outcome (A : Type) : Type :=
| Ret (a : A)
| Fail (e : error)
| Panic.
Arguments Ret {A} a.
Arguments Fail {A} e.
Arguments Panic {A}.

(** ** Time *)

(** A [time.Time] is an instant, in nanoseconds since January 1, year 1,
    00:00:00 UTC, the instant of the zero [Time]; a [time.Duration] is an
    [int64] number of nanoseconds.  All instants are compared on one time
    line. *)
Abbreviation Time := Z.
Abbreviation Duration := Z.

(** The zero value of [time.Time]: what a [lastExport] field holds until it is
    assigned. *)
Definition zeroTime : Time := 0.

(** January 1, 1970 UTC on that time line: 62135596800 seconds after the zero
    [Time]. *)
Definition unixEpoch : Time := 62135596800 * 1000000000.

(** [int64] arithmetic wraps around. *)
Definition wrap64 (z : Z) : Z := (z + 2 ^ 63) mod 2 ^ 64 - 2 ^ 63.

Definition minInt64 : Z := - 2 ^ 63.
Definition maxInt64 : Z := 2 ^ 63 - 1.

(** [t.Add(d)].  (Go saturates at the ends of the representable range, which
    lie hundreds of billions of years away.) *)
Definition Time_Add (t : Time) (d : Duration) : Time := t + d.

(** [t.Before(u)]. *)
Definition Time_Before (t u : Time) : bool := t <? u.

(** ** The datastore ([cassandra]) and the rest of the world *)

Definition UUID := N.

(** Modelled from the spec: a Stored Record, a row of the table
    [<keyspace>.events] with the columns that the INSERT statement of
    [flushIfNeeded] names.  (The expiry is the store's business: rows are
    read here within their time to live.) *)
Record Row := mkRow {
  row_id : UUID;
  row_trace_id : string;
  row_origin : string;
  row_event : string;
  row_value : float;
  row_unit : string;
  row_created_at : Time
}.

Module Filter.
(** [cassandra.Filter]. *)
Record t := mk { TraceID : string; Origin : string; Event : string }.
End Filter.

(** What [log.Printf] wrote: the line ["Batch writing %d records"] with its
    argument. *)
Inductive LogLine :=
| BatchWriting (records : nat).

(** Everything outside the server that its code reads or changes.  The clock
    and the UUID generator answer call after call ([clock w k] is the [k]-th
    reading ever taken); the faults say how the next calls to the store end. *)
Record World := mkWorld {
  (** the rows of [<keyspace>.events], oldest first *)
  table : list Row;
  (** the batches handed to [session.ExecuteBatch] so far, newest first *)
  sent : list (list Row);
  (** the lines logged so far, newest first *)
  log : list LogLine;
  (** [time.Now()] *)
  clock : nat → Time;
  readings : nat;
  (** [gocql.RandomUUID()] *)
  uuid_source : nat → outcome UUID;
  uuids_drawn : nat;
  (** the error of [batch.Query], if it fails *)
  batch_query_fault : option error;
  (** the error of [session.ExecuteBatch], if it fails, with the statements
      of the batch that the store applied all the same (a batch is no
      transaction) *)
  execute_fault : option (error * (Row → bool));
  (** the error of [filter.CQL()] for the filters it rejects *)
  cql_fault : Filter.t → option error;
  (** the error of [session.Query] for the SELECT, if it fails *)
  select_fault : option error
}.

Definition set_table (f : list Row → list Row) (w : World) : World :=
  mkWorld (f (table w)) (sent w) (log w) (clock w) (readings w) (uuid_source w)
    (uuids_drawn w) (batch_query_fault w) (execute_fault w) (cql_fault w)
    (select_fault w).

Definition set_sent (f : list (list Row) → list (list Row)) (w : World) : World :=
  mkWorld (table w) (f (sent w)) (log w) (clock w) (readings w) (uuid_source w)
    (uuids_drawn w) (batch_query_fault w) (execute_fault w) (cql_fault w)
    (select_fault w).

Definition set_log (f : list LogLine → list LogLine) (w : World) : World :=
  mkWorld (table w) (sent w) (f (log w)) (clock w) (readings w) (uuid_source w)
    (uuids_drawn w) (batch_query_fault w) (execute_fault w) (cql_fault w)
    (select_fault w).

Definition set_readings (f : nat → nat) (w : World) : World :=
  mkWorld (table w) (sent w) (log w) (clock w) (f (readings w)) (uuid_source w)
    (uuids_drawn w) (batch_query_fault w) (execute_fault w) (cql_fault w)
    (select_fault w).

Definition set_uuids_drawn (f : nat → nat) (w : World) : World :=
  mkWorld (table w) (sent w) (log w) (clock w) (readings w) (uuid_source w)
    (f (uuids_drawn w)) (batch_query_fault w) (execute_fault w) (cql_fault w)
    (select_fault w).

(** Modelled from the spec: the Filter Translator and the store's scan.  Each
    field of a filter is optional (the empty string when absent) and a row
    matches when it agrees with every field that is present. *)
Definition field_matches (want got : string) : bool :=
  String.eqb want "" || String.eqb want got.

Definition matches (f : Filter.t) (r : Row) : bool :=
  field_matches (Filter.TraceID f) (row_trace_id r)
  && field_matches (Filter.Origin f) (row_origin r)
  && field_matches (Filter.Event f) (row_event r).

(** Modelled from the spec: [filter.CQL()], the Filter Translator; it gives
    the predicate, or fails on an invalid filter. *)
Definition CQL (w : World) (f : Filter.t) : outcome (Row → bool) :=
  match cql_fault w f with
  | Some err => Fail err
  | None => Ret (matches f)
  end.

(** Modelled from the spec: the iterator of a scan, [q.Iter()], which the
    spec calls lazy, finite and single-pass: the rows that [Scan] delivers
    before it returns false, and the error that the iterator then holds when
    the scan failed before its end.  [Scan] returns a [bool] only. *)
Record Iter := mkIter {
  iter_rows : list (string * float * string);
  iter_err : option error
}.

(** Modelled from the spec: the store's scan,
    [s.session.Query(`SELECT event, value, unit FROM ... ` + filterCQL + ...)]
    with the iterator that [q.Iter()] then gives.  The call fails as a whole,
    or the iterator makes one pass over the rows that match, in table order:
    to the end, or, with the fault [Some (k, err)], until the store fails
    with [err] after [k] rows. *)
Definition session_Query (fault : option (nat * error)) (w : World) (pred : Row → bool)
  : outcome Iter :=
  match select_fault w with
  | Some err => Fail err
  | None =>
      let rows :=
        (λ r, (row_event r, row_value r, row_unit r)) <$> filter (λ r, pred r = true) (table w) in
      Ret (match fault with
           | None => mkIter rows None
           | Some (k, err) => mkIter (take k rows) (Some err)
           end)
  end.

(** ** The batch writer *)

(** [type batchWriter struct].  The mutex is left out: a call is modelled from
    [Lock] to [Unlock], which no other call interleaves with.  [server] is the
    world's store. *)
Record batchWriter := mkBatchWriter {
  events : gmap string loc;
  lastExport : Time;
  n : Z;
  flushInterval : Duration
}.

(** [func newBatchWriter(server *Server, n int, flushInterval time.Duration)]:
    [lastExport] is not assigned and holds the zero [Time]. *)
Definition newBatchWriter (n : Z) (flushInterval : Duration) : batchWriter :=
  mkBatchWriter ∅ zeroTime n flushInterval.

(** The state a call runs on: the heap of event objects, the writer, and the
    world. *)
Record State := mkState {
  heap : gmap loc Event;
  writer : batchWriter;
  world : World
}.

(** A call: from a state to how it ends and the state it leaves. *)
Definition M (A : Type) : Type := State → outcome A * State.

Global Instance M_ret : MRet M := λ A a s, (Ret a, s).

Global Instance M_bind : MBind M := λ A B f c s,
  match c s with
  | (Ret a, s') => f a s'
  | (Fail e, s') => (Fail e, s')
  | (Panic, s') => (Panic, s')
  end.

Definition panic {A} : M A := λ s, (Panic, s).

(** Reading [*p]; a nil dereference panics. *)
Definition load (p : loc) : M Event := λ s,
  match heap s !! p with
  | Some ev => (Ret ev, s)
  | None => (Panic, s)
  end.

(** Writing [*p]. *)
Definition store (p : loc) (ev : Event) : M unit := λ s,
  (Ret tt, mkState (<[p := ev]> (heap s)) (writer s) (world s)).

Definition get_writer : M batchWriter := λ s, (Ret (writer s), s).

Definition put_events (m : gmap string loc) : M unit := λ s,
  let b := writer s in
  (Ret tt, mkState (heap s) (mkBatchWriter m (lastExport b) (n b) (flushInterval b)) (world s)).

Definition put_lastExport (t : Time) : M unit := λ s,
  let b := writer s in
  (Ret tt, mkState (heap s) (mkBatchWriter (events b) t (n b) (flushInterval b)) (world s)).

Definition on_world (f : World → World) : M unit := λ s,
  (Ret tt, mkState (heap s) (writer s) (f (world s))).

(** [time.Now()]. *)
Definition time_Now : M Time := λ s,
  let w := world s in
  (Ret (clock w (readings w)), mkState (heap s) (writer s) (set_readings S w)).

(** [gocql.RandomUUID()]. *)
Definition RandomUUID : M UUID := λ s,
  let w := world s in
  (uuid_source w (uuids_drawn w), mkState (heap s) (writer s) (set_uuids_drawn S w)).

(** [log.Printf("Batch writing %d records", len)]. *)
Definition log_Printf (l : LogLine) : M unit := on_world (set_log (cons l)).

(** Modelled from the spec:
    [batch.Query(`INSERT INTO ... VALUES (?, ?, ?, ?, ?, ?, ?) ...`, ...)];
    the statement joins the batch, unless the call fails. *)
Definition batch_Query (batch : list Row) (r : Row) : M (list Row) := λ s,
  match batch_query_fault (world s) with
  | Some err => (Fail err, s)
  | None => (Ret (batch ++ [r])%list, s)
  end.

(** Modelled from the spec: [b.server.session.ExecuteBatch(batch)], the
    store's batch write; the store receives the batch and appends its rows, or
    fails having appended some of them. *)
Definition ExecuteBatch (batch : list Row) : M unit := λ s,
  let w := set_sent (cons batch) (world s) in
  match execute_fault (world s) with
  | Some (err, applied) =>
      (Fail err,
       mkState (heap s) (writer s)
         (set_table (λ t, (t ++ filter (λ r, applied r = true) batch)%list) w))
  | None =>
      (Ret tt, mkState (heap s) (writer s) (set_table (λ t, (t ++ batch)%list) w))
  end.

(** A [for _, x := range l] loop whose body may return early. *)
Fixpoint for_each {A} (body : A → M unit) (l : list A) : M unit :=
  match l with
  | [] => mret tt
  | x :: l' => body x ;; for_each body l'
  end.

(** The same with a value carried from one round to the next. *)
Fixpoint for_each_acc {A B} (body : B → A → M B) (acc : B) (l : list A) : M B :=
  match l with
  | [] => mret acc
  | x :: l' => acc' ← body acc x; for_each_acc body acc' l'
  end.

(** The body of the loop of [Write], for the event behind the pointer
    [p]: the first event of a key is stored in the buffer as it is (the
    pointer, not a copy); a later one is added into the object that the
    buffer points to. *)
Definition merge_event (e : Entry.t) (p : loc) : M unit :=
  event ← load p;
  let k := key (Entry.Origin e) (Entry.TraceId e) (Name event) (Unit event) in
  b ← get_writer;
  match events b !! k with
  | None => put_events (<[k := p]> (events b))
  | Some q =>
      v ← load q;
      store q (mkEvent (Name v) (Value v + Value event) (Unit v)) ;;
      b ← get_writer;
      put_events (<[k := q]> (events b))
  end.

(** The condition of [flushIfNeeded]:
    [len(b.events) > b.n || b.lastExport.Before(time.Now().Add(-1*b.flushInterval))].
    The clock is read only when the first disjunct is false. *)
Definition flush_due : M bool :=
  b ← get_writer;
  if bool_decide (n b < Z.of_nat (size (events b))) then mret true
  else
    now ← time_Now;
    mret (Time_Before (lastExport b) (Time_Add now (wrap64 (-1 * flushInterval b)))).

(** The body of the loop of [flushIfNeeded] over the buffer, for one key and
    the event it points to. *)
Definition add_insert (batch : list Row) (ke : string * loc) : M (list Row) :=
  match parseKey ke.1 with
  | None => panic
  | Some (origin, traceID, name, unit) =>
      id ← RandomUUID;
      e ← load ke.2;
      now ← time_Now;
      batch_Query batch (mkRow id traceID origin name (Value e) unit now)
  end.

(** The branch of [flushIfNeeded] that flushes.  Go leaves the order of a
    [range] over a map open; the order here is that of [map_to_list]. *)
Definition flush : M unit :=
  b ← get_writer;
  log_Printf (BatchWriting (size (events b))) ;;
  batch ← for_each_acc add_insert [] (map_to_list (events b));
  ExecuteBatch batch ;;
  put_events ∅ ;;
  now ← time_Now;
  put_lastExport now.

(** [func (b *batchWriter) flushIfNeeded() error]. *)
Definition flushIfNeeded : M unit :=
  due ← flush_due;
  if due : bool then flush else mret tt.

(** [func (b *batchWriter) Write(e *pb.Entry) error]. *)
Definition Write (e : Entry.t) : M unit :=
  for_each (merge_event e) (Entry.Events e) ;;
  flushIfNeeded.

(** ** The query *)

(** [type eventSorter struct] with [Len], [Less] and [Swap]; indexing past the
    end panics ([None]). *)
Record eventSorter := mkEventSorter { sorter_events : list Event }.

Definition Len (s : eventSorter) : nat := length (sorter_events s).

Definition Less (s : eventSorter) (i j : nat) : option bool :=
  a ← sorter_events s !! i;
  b ← sorter_events s !! j;
  Some (String.ltb (Name a) (Name b)).

Definition Swap (s : eventSorter) (i j : nat) : option eventSorter :=
  a ← sorter_events s !! i;
  b ← sorter_events s !! j;
  Some (mkEventSorter (<[i := b]> (<[j := a]> (sorter_events s)))).

(** What [Less] compares: the names, as byte strings. *)
Definition name_lt (a b : Event) : bool := String.ltb (Name a) (Name b).

(** [sort.Sort(sorter)] is Go's library routine; it reads and moves the
    slice through [Len], [Less] and [Swap] only.  On a slice of at most 12
    elements it runs [insertionSort(data, 0, n)],
      [for i := a + 1; i < b; i++ {
         for j := i; j > a && data.Less(j, j-1); j-- { data.Swap(j, j-1) } }],
    which is the model here for every length.  On a longer slice Go runs
    another in-place algorithm through the same three methods; it too leaves
    no element [Less] than one before it, but may leave events of equal names
    in another order. *)

(** The inner loop, from [j] on. *)
Fixpoint insertionSort_inner (s : eventSorter) (a j : nat) : option eventSorter :=
  match j with
  | O => Some s
  | S j' =>
      if bool_decide (a < j)%nat then
        less ← Less s j j';
        if less : bool then s' ← Swap s j j'; insertionSort_inner s' a j'
        else Some s
      else Some s
  end.

(** The outer loop, from [i] on, for the [rounds] rounds that are left. *)
Fixpoint insertionSort_outer (s : eventSorter) (a i rounds : nat) : option eventSorter :=
  match rounds with
  | O => Some s
  | S rounds' => s' ← insertionSort_inner s a i; insertionSort_outer s' a (S i) rounds'
  end.

Definition insertionSort (s : eventSorter) (a b : nat) : option eventSorter :=
  insertionSort_outer s a (S a) (b - S a).

Definition sort_Sort (s : eventSorter) : option eventSorter :=
  insertionSort s 0 (Len s).

(** The body of the scan loop of [Query]: the row joins the event of its key,
    or starts one.  The events of [v] are objects that [Query] allocates and
    nothing else points to, so they are values here. *)
Definition scan_row (req : QueryRequest.t) (v : gmap string Event)
    (row : string * float * string) : gmap string Event :=
  let '(name, value, unit) := row in
  let k := key (QueryRequest.TraceId req) (QueryRequest.Origin req) name unit in
  match v !! k with
  | Some event => <[k := mkEvent (Name event) (Value event + value) (Unit event)]> v
  | None => <[k := mkEvent name value unit]> v
  end.

(** [func (s *Server) Query(ctx, req)], returning a [*pb.QueryResponse] and
    an [error], with what the source leaves to its libraries as parameters:
    [sort] is [sort.Sort], and [fault] says how the iterator of the scan
    ends.  The loop runs while [Scan] returns true and never reads the
    iterator's error.  The [range] over [v] is in the order of
    [map_to_list]. *)
Definition Query_with (sort : eventSorter → option eventSorter) (fault : option (nat * error))
    (w : World) (req : QueryRequest.t) : outcome QueryResponse :=
  let filter :=
    Filter.mk (QueryRequest.TraceId req) (QueryRequest.Origin req) (QueryRequest.Event req) in
  match CQL w filter with
  | Fail err => Fail err
  | Panic => Panic
  | Ret filterCQL =>
      match session_Query fault w filterCQL with
      | Fail err => Fail err
      | Panic => Panic
      | Ret iter =>
          let v := foldl (scan_row req) ∅ (iter_rows iter) in
          let events := (λ e, mkEvent (Name e) (Value e) (Unit e)) <$> (map_to_list v).*2 in
          match sort (mkEventSorter events) with
          | Some sorter => Ret (mkQueryResponse (sorter_events sorter))
          | None => Panic
          end
      end
  end.

(** [Query] with Go's sort, on a store whose scans run to their end. *)
Definition Query (w : World) (req : QueryRequest.t) : outcome QueryResponse :=
  Query_with sort_Sort None w req.

(** ** Notions that the statements use *)

(** [a.Name <= b.Name], on byte strings. *)
Definition name_le (a b : Event) : Prop := String.leb (Name a) (Name b) = true.

(** No element of the slice is [Less] than one before it: what [sort.Sort]
    promises of the slice that it leaves. *)
Definition ascending (s : eventSorter) : Prop :=
  ∀ i j, (i < j < Len s)%nat → Less s j i = Some false.

(** The filter that [Query] builds from a request. *)
Definition filter_of (req : QueryRequest.t) : Filter.t :=
  Filter.mk (QueryRequest.TraceId req) (QueryRequest.Origin req) (QueryRequest.Event req).

(** The rows that the scan of [Query] delivers: every row of the table that
    matches the filter. *)
Definition scanned (w : World) (req : QueryRequest.t) : list (string * float * string) :=
  (λ r, (row_event r, row_value r, row_unit r))
    <$> filter (λ r, matches (filter_of req) r = true) (table w).

(** The key that [Query] files a scanned row under. *)
Definition scan_key (req : QueryRequest.t) (row : string * float * string) : string :=
  key (QueryRequest.TraceId req) (QueryRequest.Origin req) row.1.1 row.2.

(** What one more row makes of the event of its key. *)
Definition add_row (o : option Event) (row : string * float * string) : option Event :=
  match o with
  | Some event => Some (mkEvent (Name event) (Value event + row.1.2) (Unit event))
  | None => Some (mkEvent row.1.1 row.1.2 row.2)
  end.

(** The left-to-right [float64] sum of a sequence of values, when there is
    one. *)
Definition total (vs : list float) : option float :=
  match vs with
  | [] => None
  | v :: vs' => Some (foldl PrimFloat.add v vs')
  end.

(** What of the world no call of the server changes. *)
Definition environment (w : World) :=
  (clock w, uuid_source w, batch_query_fault w, execute_fault w, cql_fault w, select_fault w).

(** A state with its world changed. *)
Definition with_world (f : World → World) (s : State) : State :=
  mkState (heap s) (writer s) (f (world s)).

(** Every pointer in the buffer points to an event. *)
Definition buffer_valid (s : State) : Prop :=
  ∀ k q, events (writer s) !! k = Some q → is_Some (heap s !! q).

(** What of the world only the store and the logger change. *)
Definition stored (w : World) := (table w, sent w, log w).

(** The condition of [flushIfNeeded], for a writer and a reading of the
    clock. *)
Definition due_at (b : batchWriter) (now : Time) : bool :=
  bool_decide (n b < Z.of_nat (size (events b)))
  || Time_Before (lastExport b) (Time_Add now (wrap64 (-1 * flushInterval b))).

(** The state in which the loop of a flush starts: the line is logged. *)
Definition logged (s : State) : State :=
  with_world (set_log (cons (BatchWriting (size (events (writer s)))))) s.

(** The left-to-right sum that the buffer holds for a key after a merge. *)
Definition buffered (s : State) (k : string) : option float :=
  q ← events (writer s) !! k; Value <$> heap s !! q.

(** A state some readings of the clock later. *)
Definition later (k : nat) (s : State) : State :=
  with_world (set_readings (Nat.add k)) s.

(** The events to show as the answer of a query for a total. *)
Definition answer (nm u : string) (sum : option float) : list Event :=
  match sum with
  | Some v => [mkEvent nm v u]
  | None => []
  end.

(** ** Worlds and states to run the calls on *)

(** A world with an empty table in which nothing fails: the clock reads
    [start], [start + step], ... and the UUIDs are 0, 1, ... *)
Definition healthy_world (start step : Z) : World :=
  mkWorld [] [] [] (λ k, start + step * Z.of_nat k) 0%nat (λ k, Ret (N.of_nat k)) 0%nat
    None None (λ _, None) None.

(** The same with a store that fails every batch and applies none of it. *)
Definition failing_world (start step : Z) (err : error) : World :=
  mkWorld [] [] [] (λ k, start + step * Z.of_nat k) 0%nat (λ k, Ret (N.of_nat k)) 0%nat
    None (Some (err, λ _, false)) (λ _, None) None.

(** A heap with the two events of the round trip, and one with three events
    named out of order. *)
Definition cpu_heap : gmap loc Event :=
  <[1%positive := mkEvent "cpu" 1 "pct"]> (<[2%positive := mkEvent "cpu" 2 "pct"]> ∅).

Definition cpu_entry : Entry.t := Entry.mk "o" "t" [1%positive; 2%positive].

Definition names_heap : gmap loc Event :=
  <[1%positive := mkEvent "zz" 1 "ms"]>
    (<[2%positive := mkEvent "aa" 2 "ms"]> (<[3%positive := mkEvent "mm" 3 "ms"]> ∅)).

Definition names_entry : Entry.t :=
  Entry.mk "o" "t" [1%positive; 2%positive; 3%positive].

(** A writer that last flushed at the Unix epoch, with room for 10 keys and an
    interval of 100ms, written to exactly 100ms later. *)
Definition boundary_state : State :=
  mkState cpu_heap (mkBatchWriter ∅ unixEpoch 10 100000000)
    (healthy_world (unixEpoch + 100000000) 0).

(** A new writer in a healthy world, and in one whose store fails. *)
Definition fresh_state : State :=
  mkState cpu_heap (newBatchWriter 10 100000000) (healthy_world unixEpoch 1000).

(** The state that the merge of [cpu_entry] leaves of [fresh_state]. *)
Definition fresh_state_merged : State :=
  mkState (<[1%positive := mkEvent "cpu" 3 "pct"]> cpu_heap)
    (mkBatchWriter {[ "o:t:cpu:pct" := 1%positive ]} zeroTime 10 100000000)
    (healthy_world unixEpoch 1000).

Definition fresh_state_failing : State :=
  mkState cpu_heap (newBatchWriter 10 100000000) (failing_world unixEpoch 1000 "unavailable").

(** Three events of one key whose sum depends on the order: 1e16 + 1 is
    rounded to 1e16. *)
Definition rounding_heap : gmap loc Event :=
  <[1%positive := mkEvent "cpu" 1e16 "pct"]>
    (<[2%positive := mkEvent "cpu" 1 "pct"]>
       (<[3%positive := mkEvent "cpu" (-1e16) "pct"]> ∅)).

(** A writer that flushed 1.5µs less than its interval ago, on a clock that
    is read every microsecond: the third write flushes. *)
Definition rounding_state : State :=
  mkState rounding_heap (mkBatchWriter ∅ unixEpoch 10 100000000)
    (healthy_world (unixEpoch + 100000000 - 1500) 1000).

(** The world after the write of the three events named zz, aa and mm to a
    new writer, which flushes them. *)
Definition names_world : World :=
  world (Write names_entry
           (mkState names_heap (newBatchWriter 10 100000000) (healthy_world unixEpoch 1000))).2.

(** The world after two writes of a cpu event, one for the trace "t1" and
    one for the trace "t2", to a writer of capacity 0, which flushes each. *)
Definition two_traces_world : World :=
  world (Write (Entry.mk "o" "t2" [2%positive])
           (Write (Entry.mk "o" "t1" [1%positive])
              (mkState cpu_heap (newBatchWriter 0 100000000) (healthy_world unixEpoch 1000))).2).2.

(** A table with two rows of one trace and one origin whose names and units
    differ but spell the same key: "a:b" with "c", and "a" with "b:c". *)
Definition collision_world : World :=
  mkWorld [mkRow 0%N "t" "o" "a:b" 1 "c" unixEpoch; mkRow 1%N "t" "o" "a" 2 "b:c" unixEpoch]
    [] [] (λ _, unixEpoch) 0%nat (λ k, Ret (N.of_nat k)) 0%nat None None (λ _, None) None.

(** ** The other entry points of the server *)

Module InsertEventsRequest.
(** [pb.InsertEventsRequest]. *)
Record t := mk { Entries : list Entry.t }.
End InsertEventsRequest.

Module DeleteEventsRequest.
(** [pb.DeleteEventsRequest]. *)
Record t := mk { TraceId : string; Origin : string; Event : string }.
End DeleteEventsRequest.

(** [func (s *Server) InsertEvents(ctx, req)]: every entry in turn goes through
    [format.Espace] and is written; the first error ends the call.
    [format.Espace] is not part of this file: it is the parameter [Espace],
    any call that gives back an entry. *)
Definition InsertEvents (Espace : Entry.t → M Entry.t) (req : InsertEventsRequest.t) : M unit :=
  for_each (λ entry, e ← Espace entry; Write e) (InsertEventsRequest.Entries req).




(** The ids that the scan of [DeleteEvents] delivers: modelled from the spec
    as for [Query], one finite pass over the rows that match, as the table
    was when the scan began. *)
Definition scanned_ids (w : World) (f : Filter.t) : list UUID :=
  row_id <$> filter (λ r, matches f r = true) (table w).


(** ** More notions that the statements use *)

(** The number of separators in a string. *)
Fixpoint count_sep (s : string) : nat :=
  match s with
  | EmptyString => 0
  | String c r => if Ascii.eqb c sep then S (count_sep r) else count_sep r
  end.


(** The key that [Write] files an event of an entry under. *)
Definition event_key (e : Entry.t) (ev : Event) : string :=
  key (Entry.Origin e) (Entry.TraceId e) (Name ev) (Unit ev).

(** Every key in the buffer has its four parts. *)
Definition keys_parse (s : State) : Prop :=
  ∀ k q, events (writer s) !! k = Some q → is_Some (parseKey k).

(** The states that the writer keeps to: every key in the buffer has its four
    parts and points to an event. *)
Definition well_formed (s : State) : Prop := buffer_valid s ∧ keys_parse s.

(** The row that a flush writes for a key of the buffer and the event that
    the key points to: the four parts of the key, and the value of the
    event. *)
Definition stores (h : gmap loc Event) (ke : string * loc) (r : Row) : Prop :=
  ∃ ev, h !! ke.2 = Some ev
        ∧ parseKey ke.1 = Some (row_origin r, row_trace_id r, row_event r, row_unit r)
        ∧ row_value r = Value ev.
(** One more value added to a sum that may not have begun. *)
Definition add_value (sum : option float) (v : float) : option float :=
  Some (match sum with Some a => a + v | None => v end)%float.

(** No two keys of the buffer point to the same event. *)
Definition distinct_objects (s : State) : Prop :=
  ∀ k1 k2 q, events (writer s) !! k1 = Some q → events (writer s) !! k2 = Some q → k1 = k2.

(** The buffer does not point to the event behind [p]. *)
Definition unbuffered (s : State) (p : loc) : Prop :=
  ∀ k, events (writer s) !! k ≠ Some p.

(** A heap with two cpu events and a mem event between them, their entry, and
    a writer with room for 10 keys that is not due. *)
Definition mixed_heap : gmap loc Event :=
  <[1%positive := mkEvent "cpu" 1 "pct"]>
    (<[2%positive := mkEvent "mem" 5 "mb"]> (<[3%positive := mkEvent "cpu" 2 "pct"]> ∅)).

Definition mixed_entry : Entry.t := Entry.mk "o" "t" [1%positive; 2%positive; 3%positive].

Definition mixed_state : State :=
  mkState mixed_heap (mkBatchWriter ∅ unixEpoch 10 100000000)
    (healthy_world (unixEpoch + 100000000) 0).

(** A writer without room for a key, not due, on a store that fails every
    batch. *)
Definition full_state_failing : State :=
  mkState cpu_heap (mkBatchWriter ∅ unixEpoch 0 100000000)
    (failing_world unixEpoch 0 "unavailable").


(** A table with two cpu rows of one trace and origin. *)
Definition cpu_rows_world : World :=
  mkWorld [mkRow 0%N "t" "o" "cpu" 1 "pct" unixEpoch; mkRow 1%N "t" "o" "cpu" 2 "pct" unixEpoch]
    [] [] (λ _, unixEpoch) 0%nat (λ k, Ret (N.of_nat k)) 0%nat None None (λ _, None) None.

(** * Proofs *)

(** ** Facts about [Split] *)

Lemma Split_nonempty s : Split s ≠ [].
Proof.
  destruct s as [|c r]; simpl; [done|].
  destruct (Ascii.eqb c sep); [done|]. by destruct (Split r).
Qed.

Lemma Split_parts_sep_free s : Forall (λ p, has_sep p = false) (Split s).
Proof.
  induction s as [|c r IH]; simpl.
  - by repeat constructor.
  - destruct (Ascii.eqb c sep) eqn:Hc.
    + by constructor.
    + destruct (Split r) as [|h t]; simpl.
      * repeat constructor. simpl. by rewrite Hc.
      * inversion IH; subst. constructor; [|done]. simpl. by rewrite Hc.
Qed.

Lemma Split_sep_free s : has_sep s = false → Split s = [s].
Proof.
  induction s as [|c r IH]; simpl; [done|].
  intros [Hc Hr]%orb_false_iff. rewrite Hc, (IH Hr). done.
Qed.

Lemma Split_app_sep a r :
  has_sep a = false → Split (a ++ String sep r) = a :: Split r.
Proof.
  induction a as [|c a IH]; simpl.
  - intros _. done.
  - intros [Hc Ha]%orb_false_iff. rewrite Hc, (IH Ha). done.
Qed.

Lemma key_cons o t n u :
  key o t n u = o ++ String sep (t ++ String sep (n ++ String sep u)).
Proof. reflexivity. Qed.

Lemma Split_key o t n u :
  has_sep o = false → has_sep t = false → has_sep n = false →
  has_sep u = false →
  Split (key o t n u) = [o; t; n; u].
Proof.
  intros Ho Ht Hn Hu. rewrite key_cons.
  rewrite (Split_app_sep o), (Split_app_sep t), (Split_app_sep n) by done.
  by rewrite Split_sep_free.
Qed.

Lemma Split_app_length a r :
  (length (Split (a ++ String sep r)) > length (Split r))%nat.
Proof.
  induction a as [|c a IH]; simpl; [lia|].
  destruct (Ascii.eqb c sep); simpl; [lia|].
  destruct (Split (a ++ String sep r)) eqn:E; simpl in *; lia.
Qed.

(** X1: a key built by [key] always has at least four parts, so [parseKey]
    never panics on it, whatever the fields hold. *)
Theorem parseKey_key_total (o t n u : string) : is_Some (parseKey (key o t n u)).
Proof.
  unfold parseKey. rewrite key_cons.
  pose proof (Split_app_length o (t ++ String sep (n ++ String sep u))) as H1.
  pose proof (Split_app_length t (n ++ String sep u)) as H2.
  pose proof (Split_app_length n u) as H3.
  pose proof (Split_nonempty u) as H4.
  destruct (Split (o ++ _)) as [|a [|b [|c [|d l]]]]; simpl in *;
    destruct (Split (t ++ _)) as [|? [|? [|? ?]]]; simpl in *;
    destruct (Split (n ++ _)) as [|? [|? ?]]; simpl in *;
    destruct (Split u); simpl in *; try lia; try done.
Qed.

(** ** The aggregation key *)

Lemma has_sep_sep_part a r : has_sep (a ++ String sep r) = true.
Proof.
  induction a as [|c a IH]; simpl.
  - done.
  - rewrite IH. apply orb_true_r.
Qed.

Lemma has_sep_app_l a b : has_sep a = true → has_sep (a ++ b) = true.
Proof.
  induction a as [|c a IH]; simpl; [done|].
  intros [->|H]%orb_true_iff; [done|]. rewrite (IH H). apply orb_true_r.
Qed.

Lemma parseKey_parts_sep_free k o t n u :
  parseKey k = Some (o, t, n, u) →
  has_sep o = false ∧ has_sep t = false ∧ has_sep n = false ∧ has_sep u = false.
Proof.
  unfold parseKey. pose proof (Split_parts_sep_free k) as HF.
  rewrite Forall_lookup in HF.
  destruct (Split k !! 0%nat) as [a|] eqn:E0; [|done].
  destruct (Split k !! 1%nat) as [b|] eqn:E1; [|done].
  destruct (Split k !! 2%nat) as [c|] eqn:E2; [|done].
  destruct (Split k !! 3%nat) as [d|] eqn:E3; [|done].
  intros [= <- <- <- <-]. eauto 10.
Qed.

Lemma parseKey_key_sep_free o t n u :
  has_sep o = false → has_sep t = false → has_sep n = false → has_sep u = false →
  parseKey (key o t n u) = Some (o, t, n, u).
Proof. intros Ho Ht Hn Hu. unfold parseKey. by rewrite Split_key. Qed.

(** C2, the counterexample: an origin that holds the separator is cut at it,
    and every later field moves one place. *)
Lemma parseKey_key_separator_counterexample :
  parseKey (key "a:b" "t" "n" "u") = Some ("a", "b", "t", "n")
  ∧ parseKey (key "a:b" "t" "n" "u") ≠ Some ("a:b", "t", "n", "u").
Proof. split; [reflexivity | discriminate]. Qed.

(** C2, as amended: [parseKey (key origin traceID name unit)] gives back the
    four fields exactly when none of them holds the separator. *)
Theorem parseKey_key_roundtrip (origin traceID name unit : string) :
  parseKey (key origin traceID name unit) = Some (origin, traceID, name, unit)
  ↔ has_sep origin = false ∧ has_sep traceID = false
    ∧ has_sep name = false ∧ has_sep unit = false.
Proof.
  split.
  - apply parseKey_parts_sep_free.
  - intros (Ho & Ht & Hn & Hu). by apply parseKey_key_sep_free.
Qed.

(** ** Sorting by name *)

Lemma ltb_lt a b : String.ltb a b = true ↔ OrderedTypeEx.String_as_OT.lt a b.
Proof.
  rewrite <- OrderedTypeEx.String_as_OT.cmp_lt. unfold String.ltb, OrderedTypeEx.String_as_OT.cmp.
  destruct (String.compare a b); split; congruence.
Qed.

Lemma ltb_leb a b : String.ltb a b = true → String.leb a b = true.
Proof. unfold String.ltb, String.leb. by destruct (String.compare a b). Qed.

Lemma ltb_false_leb a b : String.ltb a b = false → String.leb b a = true.
Proof.
  unfold String.ltb, String.leb. rewrite (String.compare_antisym b a).
  by destruct (String.compare a b).
Qed.

Lemma leb_cases a b : String.leb a b = true → a = b ∨ String.ltb a b = true.
Proof.
  unfold String.ltb, String.leb.
  destruct (String.compare a b) eqn:E; intros H; try done.
  - left. by apply String.compare_eq_iff.
  - by right.
Qed.

Lemma leb_refl a : String.leb a a = true.
Proof. by destruct (String.leb_total a a). Qed.

Global Instance name_le_trans : Transitive name_le.
Proof.
  intros a b c. unfold name_le.
  intros [Hab|Hab]%leb_cases [Hbc|Hbc]%leb_cases.
  - rewrite Hab, Hbc. apply leb_refl.
  - rewrite Hab. by apply ltb_leb.
  - rewrite <- Hbc. by apply ltb_leb.
  - apply ltb_leb, ltb_lt. eapply OrderedTypeEx.String_as_OT.lt_trans; by apply ltb_lt.
Qed.

Lemma Less_middle A y x R :
  Less (mkEventSorter (A ++ y :: x :: R)) (S (length A)) (length A) = Some (name_lt x y).
Proof.
  unfold Less. simpl.
  replace (A ++ y :: x :: R)%list with ((A ++ [y]) ++ x :: R)%list at 1
    by by rewrite <- app_assoc.
  rewrite (list_lookup_middle (A ++ [y]) R x (S (length A)))
    by (rewrite length_app; simpl; lia).
  simpl. by rewrite list_lookup_middle.
Qed.

Lemma Swap_middle A y x R :
  Swap (mkEventSorter (A ++ y :: x :: R)) (S (length A)) (length A)
  = Some (mkEventSorter (A ++ x :: y :: R)).
Proof.
  unfold Swap. simpl.
  replace (A ++ y :: x :: R)%list with ((A ++ [y]) ++ x :: R)%list at 1
    by by rewrite <- app_assoc.
  rewrite (list_lookup_middle (A ++ [y]) R x (S (length A)))
    by (rewrite length_app; simpl; lia).
  simpl. rewrite list_lookup_middle by done. simpl.
  rewrite !insert_app_r_alt by lia.
  rewrite Nat.sub_diag. replace (S (length A) - length A)%nat with 1%nat by lia. done.
Qed.

(** The inner loop moves the element at [j] left, past the elements that it
    is [Less] than, into the ordered slice before it. *)
Lemma insertionSort_inner_spec A x B C :
  StronglySorted name_le (A ++ B) →
  Forall (λ y, name_lt x y = true) B →
  ∃ P, insertionSort_inner (mkEventSorter (A ++ x :: B ++ C)) 0 (length A)
       = Some (mkEventSorter (P ++ C))
       ∧ P ≡ₚ (A ++ x :: B)%list ∧ StronglySorted name_le P.
Proof.
  revert B. induction A as [|y A IH] using rev_ind; intros B Hs Hx.
  - exists (x :: B). simpl. split; [done|]. split; [done|].
    constructor; [done|]. eapply Forall_impl; [exact Hx|]. intros y. apply ltb_leb.
  - rewrite length_app. simpl. rewrite Nat.add_1_r. simpl.
    rewrite <- !app_assoc. simpl. rewrite Less_middle. simpl.
    destruct (name_lt x y) eqn:E.
    + rewrite Swap_middle. simpl.
      destruct (IH (y :: B)) as (P & HP & Hperm & Hsorted).
      * by rewrite <- app_assoc in Hs.
      * by constructor.
      * exists P. split; [exact HP|]. split; [|done].
        rewrite Hperm. apply Permutation_app_head, Permutation_swap.
    + exists (A ++ y :: x :: B)%list. split; [by rewrite <- app_assoc|]. split; [done|].
      rewrite <- app_assoc in Hs. simpl in Hs.
      apply StronglySorted_app in Hs as (Hab & HA & HB).
      apply StronglySorted_cons in HB as [HyB HB].
      assert (name_le y x) as Hyx by by apply ltb_false_leb.
      apply StronglySorted_app_2; [|done|].
      * intros a b Ha [->|[->|Hb]%elem_of_cons]%elem_of_cons.
        -- apply Hab; [done|left].
        -- transitivity y; [|done]. apply Hab; [done|left].
        -- apply Hab; [done|by right].
      * apply StronglySorted_cons. split; [by constructor|].
        apply StronglySorted_cons. split; [|done].
        eapply Forall_impl; [exact Hx|]. intros b. apply ltb_leb.
Qed.

(** The outer loop, with the slice before [i] in order, puts the whole slice
    in order. *)
Lemma insertionSort_outer_spec P C :
  StronglySorted name_le P →
  ∃ Q, insertionSort_outer (mkEventSorter (P ++ C)) 0 (length P) (length C)
       = Some (mkEventSorter Q)
       ∧ Q ≡ₚ (P ++ C)%list ∧ StronglySorted name_le Q.
Proof.
  revert P. induction C as [|x C IH]; intros P HP.
  - exists P. rewrite app_nil_r. done.
  - simpl.
    destruct (insertionSort_inner_spec P x [] C) as (P' & HP1 & Hperm & HP').
    { by rewrite app_nil_r. }
    { constructor. }
    simpl in HP1. rewrite HP1. simpl. assert (length P' = S (length P)) as Hlen.
    { rewrite Hperm, length_app. simpl. lia. }
    rewrite <- Hlen. destruct (IH P' HP') as (Q & -> & HQ & HsQ).
    exists Q. split; [done|]. split; [|done].
    rewrite HQ, Hperm, <- app_assoc. done.
Qed.

(** [sort.Sort] returns, keeps the events of the slice and leaves them in
    the order of their names. *)
Lemma sort_Sort_returns s :
  ∃ s', sort_Sort s = Some s'
        ∧ sorter_events s' ≡ₚ sorter_events s
        ∧ StronglySorted name_le (sorter_events s').
Proof.
  destruct s as [[|x l]].
  - exists (mkEventSorter []). split; [done|]. split; [done|constructor].
  - unfold sort_Sort, insertionSort, Len. simpl. rewrite Nat.sub_0_r.
    destruct (insertionSort_outer_spec [x] l) as (Q & HQ & Hperm & Hs).
    { repeat constructor. }
    exists (mkEventSorter Q). done.
Qed.

Lemma name_le_not_lt a b : name_le a b → name_lt b a = false.
Proof.
  unfold name_le, name_lt, String.leb, String.ltb.
  rewrite (String.compare_antisym (Name b) (Name a)).
  by destruct (String.compare (Name a) (Name b)).
Qed.

Lemma StronglySorted_lookup_le l i j a b :
  StronglySorted name_le l → (i < j)%nat → l !! i = Some a → l !! j = Some b → name_le a b.
Proof.
  intros Hs. revert i j. induction Hs as [|x l Hs IH Hx]; intros i j Hij Ha Hb; [done|].
  destruct j as [|j]; [lia|]. destruct i as [|i]; simpl in *.
  - injection Ha as <-. eapply Forall_forall in Hx; [done|]. by eapply list_elem_of_lookup_2.
  - eapply (IH i j); [lia|done..].
Qed.

Lemma Less_name_lt s i j a b :
  sorter_events s !! i = Some a → sorter_events s !! j = Some b →
  Less s i j = Some (name_lt a b).
Proof. unfold Less. intros -> ->. done. Qed.

(** A slice in the order of its names has no element [Less] than one before
    it, and the other way round. *)
Lemma sorted_ascending s : StronglySorted name_le (sorter_events s) → ascending s.
Proof.
  intros Hs i j [Hij Hj].
  destruct (lookup_lt_is_Some_2 (sorter_events s) j Hj) as [b Hb].
  destruct (lookup_lt_is_Some_2 (sorter_events s) i) as [a Ha]; [unfold Len in Hj; lia|].
  rewrite (Less_name_lt s j i b a Hb Ha). f_equal.
  apply name_le_not_lt. exact (StronglySorted_lookup_le _ i j a b Hs Hij Ha Hb).
Qed.

Lemma ascending_sorted s : ascending s → StronglySorted name_le (sorter_events s).
Proof.
  destruct s as [l]. unfold ascending, Len. simpl.
  induction l as [|x l IH]; intros Hasc; [constructor|]. constructor.
  - apply IH. intros i j Hij.
    pose proof (Hasc (S i) (S j) ltac:(simpl; lia)) as H. exact H.
  - apply Forall_forall. intros y Hy. apply list_elem_of_lookup_1 in Hy as [j Hj].
    pose proof (lookup_lt_Some _ _ _ Hj) as Hlt.
    pose proof (Hasc 0%nat (S j) ltac:(simpl; lia)) as H.
    rewrite (Less_name_lt (mkEventSorter (x :: l)) (S j) 0 y x) in H by done.
    injection H as H. by apply ltb_false_leb.
Qed.

(** [sort.Sort] keeps to its promise. *)
Lemma sort_Sort_ascending s s' : sort_Sort s = Some s' → ascending s'.
Proof.
  intros E. destruct (sort_Sort_returns s) as (s'' & E' & _ & Hs).
  rewrite E in E'. injection E' as <-. by apply sorted_ascending.
Qed.

(** ** The query *)

Lemma Event_eta e : mkEvent (Name e) (Value e) (Unit e) = e.
Proof. by destruct e. Qed.

Lemma Query_with_unfold sort fault w req :
  Query_with sort fault w req =
  match cql_fault w (filter_of req) with
  | Some err => Fail err
  | None =>
      match select_fault w with
      | Some err => Fail err
      | None =>
          match sort (mkEventSorter
                        (map_to_list
                           (foldl (scan_row req) ∅
                              (match fault with
                               | None => scanned w req
                               | Some (k, _) => take k (scanned w req)
                               end))).*2) with
          | Some sorter => Ret (mkQueryResponse (sorter_events sorter))
          | None => Panic
          end
      end
  end.
Proof.
  unfold Query_with, CQL, session_Query, scanned, filter_of.
  destruct (cql_fault w _); [done|]. destruct (select_fault w); [done|].
  assert (∀ l : list Event, (λ e, mkEvent (Name e) (Value e) (Unit e)) <$> l = l) as Heta.
  { intros l. rewrite <- (list_fmap_id l) at 2. apply list_fmap_ext. intros _ e _. apply Event_eta. }
  destruct fault as [[k err]|]; simpl; by rewrite Heta.
Qed.

Lemma Query_unfold w req :
  Query w req =
  match cql_fault w (filter_of req) with
  | Some err => Fail err
  | None =>
      match select_fault w with
      | Some err => Fail err
      | None =>
          match sort_Sort (mkEventSorter
                             (map_to_list (foldl (scan_row req) ∅ (scanned w req))).*2) with
          | Some sorter => Ret (mkQueryResponse (sorter_events sorter))
          | None => Panic
          end
      end
  end.
Proof. apply Query_with_unfold. Qed.

(** C8: whenever [Query] answers, the events of the answer are in ascending
    order of name (every event's name is at most the name of every later
    one): with the insertion sort that Go runs on short slices, and with any
    other routine for [sort.Sort] that leaves no element [Less] than one
    before it, however the scan ends. *)
Theorem Query_sorted_by_name :
  (∀ (w : World) (req : QueryRequest.t) (resp : QueryResponse),
     Query w req = Ret resp → StronglySorted name_le (Events resp))
  ∧ (∀ (sort : eventSorter → option eventSorter) (fault : option (nat * error)),
       (∀ s s', sort s = Some s' → ascending s') →
       ∀ (w : World) (req : QueryRequest.t) (resp : QueryResponse),
         Query_with sort fault w req = Ret resp → StronglySorted name_le (Events resp)).
Proof.
  assert (∀ sort fault, (∀ s s', sort s = Some s' → ascending s') →
          ∀ w req resp, Query_with sort fault w req = Ret resp →
                        StronglySorted name_le (Events resp)) as Hany.
  { intros sort fault Hsort w req resp. rewrite Query_with_unfold.
    destruct (cql_fault w _); [done|]. destruct (select_fault w); [done|].
    destruct (sort _) as [sorter|] eqn:E; [|done].
    intros [= <-]. simpl. eapply ascending_sorted, Hsort, E. }
  split; [|exact Hany].
  intros w req resp. apply (Hany sort_Sort None). apply sort_Sort_ascending.
Qed.

(** C9: an error of the filter translator or of [session.Query] is the only
    error that [Query] returns, before any row is read; a scan that fails
    after [k] rows is not reported: the call answers, without an error, with
    the events of those [k] rows alone.  On two cpu rows of values 1 and 2,
    with a scan that fails after the first, the answer is cpu 1, and cpu 3
    when the scan runs to its end. *)
Theorem Query_scan_failure_unreported :
  (∀ (fault : option (nat * error)) (w : World) (req : QueryRequest.t) (e : error),
     Query_with sort_Sort fault w req = Fail e →
     cql_fault w (filter_of req) = Some e
     ∨ (cql_fault w (filter_of req) = None ∧ select_fault w = Some e))
  ∧ (∀ (k : nat) (err : error) (w : World) (req : QueryRequest.t),
       cql_fault w (filter_of req) = None → select_fault w = None →
       ∃ resp, Query_with sort_Sort (Some (k, err)) w req = Ret resp
               ∧ Events resp
                 ≡ₚ (map_to_list (foldl (scan_row req) ∅ (take k (scanned w req)))).*2)
  ∧ Query_with sort_Sort (Some (1%nat, "unavailable")) cpu_rows_world (QueryRequest.mk "t" "o" "")
    = Ret (mkQueryResponse [mkEvent "cpu" 1 "pct"])
  ∧ Query cpu_rows_world (QueryRequest.mk "t" "o" "")
    = Ret (mkQueryResponse [mkEvent "cpu" 3 "pct"]).
Proof.
  split; [|split; [|split]].
  - intros fault w req e. rewrite Query_with_unfold.
    destruct (cql_fault w _) as [e1|]; [intros [= ->]; by left|].
    destruct (select_fault w) as [e2|]; [intros [= ->]; by right|].
    by destruct (sort_Sort _).
  - intros k err w req Hc Hs. rewrite Query_with_unfold, Hc, Hs.
    destruct (sort_Sort_returns (mkEventSorter
                (map_to_list (foldl (scan_row req) ∅ (take k (scanned w req)))).*2))
      as (sorter & -> & Hperm & _).
    by eexists.
  - vm_compute. reflexivity.
  - vm_compute. reflexivity.
Qed.

Lemma scan_row_lookup req v row k :
  scan_row req v row !! k = if decide (scan_key req row = k) then add_row (v !! k) row else v !! k.
Proof.
  destruct row as [[name value] unit]. unfold scan_row, scan_key. simpl.
  set (k' := key _ _ name unit).
  case_decide as Hk.
  - subst k. destruct (v !! k') as [event|]; by rewrite lookup_insert_eq.
  - destruct (v !! k') as [event|]; by rewrite lookup_insert_ne.
Qed.

Lemma scan_lookup req rows v k :
  foldl (scan_row req) v rows !! k
  = foldl add_row (v !! k) (filter (λ row, scan_key req row = k) rows).
Proof.
  revert v. induction rows as [|row rows IH]; intros v; simpl; [done|].
  rewrite IH, scan_row_lookup, filter_cons.
  by case_decide.
Qed.

Lemma string_app_inv_head (a x y : string) : a ++ x = a ++ y → x = y.
Proof. induction a as [|c a IH]; simpl; [done|]. intros [= H]. by apply IH. Qed.

Lemma sep_free_app_inj n1 u1 n2 u2 :
  has_sep n1 = false → has_sep n2 = false →
  n1 ++ String sep u1 = n2 ++ String sep u2 → n1 = n2 ∧ u1 = u2.
Proof.
  revert n2. induction n1 as [|c n1 IH]; intros [|d n2]; simpl.
  - intros _ _ [= ->]. done.
  - intros _ [Hd _]%orb_false_iff [= <- _]. done.
  - intros [Hc _]%orb_false_iff _ [= -> _]. done.
  - intros [_ H1]%orb_false_iff [_ H2]%orb_false_iff [= -> H].
    destruct (IH _ H1 H2 H) as [-> ->]. done.
Qed.

(** With the first two fields fixed, a key tells name and unit apart, as long
    as names hold no separator. *)
Lemma key_inj_name_unit a b n1 u1 n2 u2 :
  has_sep n1 = false → has_sep n2 = false →
  key a b n1 u1 = key a b n2 u2 ↔ n1 = n2 ∧ u1 = u2.
Proof.
  intros H1 H2. split; [|by intros [-> ->]].
  rewrite !key_cons. intros H%string_app_inv_head. injection H as H.
  apply string_app_inv_head in H. injection H as H.
  by apply sep_free_app_inj.
Qed.

Lemma foldl_add_row_Some e rows :
  foldl add_row (Some e) rows
  = Some (mkEvent (Name e) (foldl PrimFloat.add (Value e) (rows.*1.*2)) (Unit e)).
Proof.
  revert e. induction rows as [|row rows IH]; intros e; simpl.
  - by rewrite Event_eta.
  - by rewrite IH.
Qed.

Lemma filter_scan_key req rows name unit :
  Forall (λ row, has_sep row.1.1 = false) rows → has_sep name = false →
  filter (λ row, scan_key req row = key (QueryRequest.TraceId req) (QueryRequest.Origin req) name unit) rows
  = filter (λ row, row.1.1 = name ∧ row.2 = unit) rows.
Proof.
  intros Hrows Hname. induction Hrows as [|row rows Hrow _ IH]; [done|].
  rewrite !filter_cons, IH. unfold scan_key.
  pose proof (key_inj_name_unit (QueryRequest.TraceId req) (QueryRequest.Origin req)
                _ row.2 _ unit Hrow Hname) as Hk.
  repeat case_decide; tauto.
Qed.

(** C4, as amended: [Query] files a scanned row under the key of the
    request's trace id and origin and the row's name and unit, so the event
    that it holds for a name and a unit is the sum, in scan order, of exactly
    the scanned rows with that name and that unit (names without separator);
    the trace id and the origin of a row are not looked at. *)
Theorem scan_groups_by_name_and_unit
    (req : QueryRequest.t) (rows : list (string * float * string)) (name unit : string) :
  Forall (λ row, has_sep row.1.1 = false) rows → has_sep name = false →
  foldl (scan_row req) ∅ rows
    !! key (QueryRequest.TraceId req) (QueryRequest.Origin req) name unit
  = (λ v, mkEvent name v unit)
      <$> total ((filter (λ row, row.1.1 = name ∧ row.2 = unit) rows).*1.*2).
Proof.
  intros Hrows Hname.
  rewrite scan_lookup, lookup_empty, filter_scan_key by done.
  destruct (filter _ rows) as [|row l] eqn:E; [done|].
  assert (row ∈ filter (λ row : string * float * string,
            row.1.1 = name ∧ row.2 = unit) rows) as Hin by (rewrite E; left).
  apply list_elem_of_filter in Hin as [[Hn Hu] _].
  simpl. rewrite foldl_add_row_Some. simpl. by rewrite Hn, Hu.
Qed.

(** ** Running calls *)

Lemma bind_run {A B} (c : M A) (f : A → M B) s :
  (c ≫= f) s =
  match c s with
  | (Ret a, s') => f a s'
  | (Fail e, s') => (Fail e, s')
  | (Panic, s') => (Panic, s')
  end.
Proof. reflexivity. Qed.

(** A run is its outcome and the state it leaves. *)
Lemma run_eq {A} (x : outcome A * State) r : x.1 = r → x = (r, x.2).
Proof. destruct x. simpl. by intros ->. Qed.

Lemma for_each_app {A} (body : A → M unit) l1 l2 s :
  for_each body (l1 ++ l2)%list s = (for_each body l1 ;; for_each body l2) s.
Proof.
  revert s. induction l1 as [|x l1 IH]; intros s; simpl.
  - done.
  - rewrite !bind_run. destruct (body x s) as [[[]|err|] s1]; try done.
Qed.

(** *** The loop of [Write] *)

(** The loop of [Write] looks at the entry's origin and trace id only. *)
Lemma merge_event_entry e e' p :
  Entry.Origin e = Entry.Origin e' → Entry.TraceId e = Entry.TraceId e' →
  merge_event e p = merge_event e' p.
Proof. unfold merge_event. by intros -> ->. Qed.

(** It leaves the world and the settings of the writer alone. *)
Lemma merge_event_frame e p s r s' :
  merge_event e p s = (r, s') →
  world s' = world s ∧ lastExport (writer s') = lastExport (writer s)
  ∧ n (writer s') = n (writer s) ∧ flushInterval (writer s') = flushInterval (writer s).
Proof.
  unfold merge_event, load, get_writer, store, put_events. rewrite !bind_run.
  destruct (heap s !! p) as [event|]; [|by intros [= <- <-]].
  rewrite !bind_run.
  destruct (events (writer s) !! _) as [q|]; [|by intros [= <- <-]].
  rewrite !bind_run.
  destruct (heap s !! q) as [v|]; [|by intros [= <- <-]].
  by intros [= <- <-].
Qed.

Lemma merge_frame e ps s r s' :
  for_each (merge_event e) ps s = (r, s') →
  world s' = world s ∧ lastExport (writer s') = lastExport (writer s)
  ∧ n (writer s') = n (writer s) ∧ flushInterval (writer s') = flushInterval (writer s).
Proof.
  revert s. induction ps as [|p ps IH]; intros s; simpl.
  - by intros [= <- <-].
  - rewrite bind_run. destruct (merge_event e p s) as [[[]|err|] s1] eqn:E;
      apply merge_event_frame in E as (Hw & Hl & Hn & Hf).
    + intros (-> & -> & -> & ->)%IH. done.
    + by intros [= <- <-].
    + by intros [= <- <-].
Qed.

(** Nor does it read the world. *)
Lemma merge_event_with_world e p f s :
  merge_event e p (with_world f s)
  = ((merge_event e p s).1, with_world f (merge_event e p s).2).
Proof.
  unfold merge_event, load, get_writer, store, put_events, with_world.
  rewrite !bind_run. simpl.
  destruct (heap s !! p) as [event|]; [|done].
  rewrite !bind_run. simpl.
  destruct (events (writer s) !! _) as [q|]; [|done].
  rewrite !bind_run. simpl.
  destruct (heap s !! q) as [v|]; done.
Qed.

Lemma merge_with_world e ps f s :
  for_each (merge_event e) ps (with_world f s)
  = ((for_each (merge_event e) ps s).1, with_world f (for_each (merge_event e) ps s).2).
Proof.
  revert s. induction ps as [|p ps IH]; intros s; simpl; [done|].
  rewrite !bind_run, merge_event_with_world.
  destruct (merge_event e p s) as [[[]|err|] s1]; simpl; done.
Qed.

Lemma merge_event_valid e p s :
  buffer_valid s → is_Some (heap s !! p) →
  ∃ s', merge_event e p s = (Ret tt, s') ∧ buffer_valid s'
        ∧ dom (heap s') = dom (heap s).
Proof.
  intros Hb [event Hp].
  unfold merge_event, load, get_writer, store, put_events. rewrite !bind_run, Hp.
  rewrite !bind_run.
  destruct (events (writer s) !! _) as [q|] eqn:Hq.
  - destruct (Hb _ _ Hq) as [v Hv]. rewrite !bind_run, Hv. simpl.
    eexists. split; [done|]. simpl. split.
    + intros k' q'. simpl. rewrite (insert_id (events (writer s))) by done.
      intros Hk'%Hb. rewrite lookup_insert. case_decide; [by eexists|done].
    + by apply dom_insert_lookup_L.
  - eexists. split; [done|]. simpl. split; [|done].
    intros k' q'. simpl. rewrite lookup_insert. case_decide.
    + intros [= <-]. by exists event.
    + apply Hb.
Qed.

Lemma merge_valid e ps s :
  buffer_valid s → Forall (λ p, is_Some (heap s !! p)) ps →
  ∃ s', for_each (merge_event e) ps s = (Ret tt, s') ∧ buffer_valid s'.
Proof.
  revert s. induction ps as [|p ps IH]; intros s Hb Hps; simpl.
  - by exists s.
  - inversion Hps as [|? ? Hp Hps']; subst.
    destruct (merge_event_valid e p s Hb Hp) as (s1 & E & Hb1 & Hd).
    rewrite bind_run, E. apply IH; [done|].
    eapply Forall_impl; [exact Hps'|]. simpl. intros p'.
    rewrite <- !elem_of_dom. by rewrite Hd.
Qed.

(** *** The flush *)

Lemma flush_due_run s :
  flush_due s =
  (Ret (due_at (writer s) (clock (world s) (readings (world s)))),
   if bool_decide (n (writer s) < Z.of_nat (size (events (writer s)))) then s
   else with_world (set_readings S) s).
Proof.
  unfold flush_due, due_at, get_writer, time_Now. rewrite bind_run.
  by case_bool_decide.
Qed.

Lemma wrap64_small z : minInt64 ≤ z ≤ maxInt64 → wrap64 z = z.
Proof.
  unfold wrap64, minInt64, maxInt64. intros Hz.
  rewrite Z.mod_small by lia. lia.
Qed.

Lemma wrap64_range z : minInt64 ≤ wrap64 z ≤ maxInt64.
Proof.
  unfold wrap64, minInt64, maxInt64.
  pose proof (Z.mod_pos_bound (z + 2 ^ 63) (2 ^ 64)). lia.
Qed.

(** Away from the one interval whose negation overflows, the condition is:
    more events than [n], or strictly more than the interval since
    [lastExport]. *)
Lemma due_at_spec b now :
  minInt64 < flushInterval b ≤ maxInt64 →
  due_at b now = true
  ↔ n b < Z.of_nat (size (events b)) ∨ flushInterval b < now - lastExport b.
Proof.
  intros Hi. unfold due_at, Time_Before, Time_Add.
  rewrite wrap64_small by (unfold minInt64, maxInt64 in *; lia).
  rewrite orb_true_iff, bool_decide_eq_true, Z.ltb_lt. lia.
Qed.

Lemma add_insert_frame batch ke s r s' :
  add_insert batch ke s = (r, s') →
  heap s' = heap s ∧ writer s' = writer s
  ∧ environment (world s') = environment (world s)
  ∧ stored (world s') = stored (world s)
  ∧ (readings (world s) ≤ readings (world s'))%nat.
Proof.
  unfold add_insert, panic, RandomUUID, load, time_Now, batch_Query.
  destruct (parseKey ke.1) as [[[[origin traceID] name] unit]|];
    [|by intros [= <- <-]].
  rewrite !bind_run.
  destruct (uuid_source _ _) as [id|err|]; try by intros [= <- <-].
  rewrite !bind_run. simpl.
  destruct (heap s !! ke.2) as [e|]; [|by intros [= <- <-]].
  rewrite !bind_run. simpl.
  destruct (batch_query_fault (world s)); intros [= <- <-]; simpl;
    repeat split; lia.
Qed.

Lemma insert_loop_frame l batch s r s' :
  for_each_acc add_insert batch l s = (r, s') →
  heap s' = heap s ∧ writer s' = writer s
  ∧ environment (world s') = environment (world s)
  ∧ stored (world s') = stored (world s)
  ∧ (readings (world s) ≤ readings (world s'))%nat.
Proof.
  revert batch s. induction l as [|ke l IH]; intros batch s; simpl.
  - intros [= <- <-]. repeat split; lia.
  - rewrite bind_run.
    destruct (add_insert batch ke s) as [[batch'|err|] s1] eqn:E;
      apply add_insert_frame in E as (Hh & Hw & He & Hs & Hr).
    + intros (-> & -> & -> & -> & ?)%IH. repeat split; try done. lia.
    + by intros [= <- <-].
    + by intros [= <- <-].
Qed.

(** How a flush ends.  Either its loop ends the call, with the buffer and the
    store as they were; or the batch reaches the store: if the store fails,
    the call fails and the buffer is as it was, and if not, the call returns
    with an empty buffer and [lastExport] at the reading of the clock then
    taken, the call's last. *)
Lemma flush_run s r s' :
  flush s = (r, s') →
  heap s' = heap s
  ∧ environment (world s') = environment (world s)
  ∧ log (world s') = BatchWriting (size (events (writer s))) :: log (world s)
  ∧ ((r ≠ Ret tt ∧ writer s' = writer s ∧ sent (world s') = sent (world s)
      ∧ table (world s') = table (world s))
     ∨ ∃ batch s1,
         for_each_acc add_insert [] (map_to_list (events (writer s))) (logged s)
           = (Ret batch, s1)
         ∧ sent (world s') = batch :: sent (world s)
         ∧ match execute_fault (world s) with
           | Some (err, applied) =>
               r = Fail err ∧ writer s' = writer s
               ∧ table (world s') = (table (world s) ++ filter (λ r, applied r = true) batch)%list
           | None =>
               r = Ret tt
               ∧ writer s' = mkBatchWriter ∅ (clock (world s) (pred (readings (world s'))))
                               (n (writer s)) (flushInterval (writer s))
               ∧ table (world s') = (table (world s) ++ batch)%list
               ∧ (readings (world s) < readings (world s'))%nat
           end).
Proof.
  unfold flush, get_writer, log_Printf, on_world. rewrite !bind_run.
  fold (with_world (set_log (cons (BatchWriting (size (events (writer s)))))) s).
  fold (logged s).
  destruct (for_each_acc add_insert [] _ (logged s)) as [[batch|err|] s1] eqn:E;
    pose proof E as (Hh & Hw & He & Hs & Hr)%insert_loop_frame;
    simpl in Hh, Hw, Hs, Hr; injection Hs as Ht Hse Hl.
  - rewrite bind_run. unfold ExecuteBatch.
    assert (execute_fault (world s1) = execute_fault (world s)) as ->
      by (injection He; auto).
    assert (clock (world s1) = clock (world s)) as Hc by (injection He; auto).
    destruct (execute_fault (world s)) as [[err applied]|] eqn:Hx.
    + intros [= <- <-]. simpl. rewrite Hh, Hw, Ht, Hse, Hl.
      repeat split; try done. right. exists batch, s1. done.
    + rewrite !bind_run. unfold put_events, time_Now, put_lastExport.
      rewrite !bind_run. simpl. intros [= <- <-]. simpl.
      rewrite Hh, Hw, Ht, Hse, Hl, Hc. repeat split; try done.
      right. exists batch, s1. repeat split; try done. lia.
  - intros [= <- <-]. rewrite Hh, Hw, Ht, Hse, Hl. repeat split; try done.
    left. done.
  - intros [= <- <-]. rewrite Hh, Hw, Ht, Hse, Hl. repeat split; try done.
    left. done.
Qed.

Lemma flushIfNeeded_run s :
  flushIfNeeded s =
  if due_at (writer s) (clock (world s) (readings (world s)))
  then flush (if bool_decide (n (writer s) < Z.of_nat (size (events (writer s))))
              then s else with_world (set_readings S) s)
  else (Ret tt, with_world (set_readings S) s).
Proof.
  unfold flushIfNeeded. rewrite bind_run, flush_due_run.
  destruct (due_at _ _) eqn:E; [done|].
  unfold due_at in E. apply orb_false_iff in E as [-> _]. done.
Qed.

(** A call of [flushIfNeeded] logs its line exactly when the flush is due. *)
Lemma flushIfNeeded_log s :
  log (world (flushIfNeeded s).2)
  = if due_at (writer s) (clock (world s) (readings (world s)))
    then BatchWriting (size (events (writer s))) :: log (world s)
    else log (world s).
Proof.
  rewrite flushIfNeeded_run. destruct (due_at _ _); [|done].
  destruct (flush _) as [r s'] eqn:E. apply flush_run in E as (_ & _ & Hl & _).
  simpl. rewrite Hl. by case_bool_decide.
Qed.

Lemma Write_run e s sm :
  for_each (merge_event e) (Entry.Events e) s = (Ret tt, sm) →
  Write e s = flushIfNeeded sm.
Proof. intros E. unfold Write. by rewrite bind_run, E. Qed.

(** ** The flush trigger *)

(** C5, the counterexample: a write exactly one flush interval after
    [lastExport], below capacity, flushes nothing: nothing is logged or sent,
    and the key stays in the buffer. *)
Lemma flush_trigger_boundary_counterexample :
  clock (world boundary_state) (readings (world boundary_state))
    - lastExport (writer boundary_state) >= flushInterval (writer boundary_state)
  ∧ log (world (Write cpu_entry boundary_state).2) = []
  ∧ sent (world (Write cpu_entry boundary_state).2) = []
  ∧ events (writer (Write cpu_entry boundary_state).2) = {[ "o:t:cpu:pct" := 1%positive ]}.
Proof.
  split; [vm_compute; discriminate|].
  split; [vm_compute; reflexivity|].
  split; vm_compute; reflexivity.
Qed.

(** C5, as amended: with the entry's events merged, a write flushes exactly
    when the buffer holds more than [n] keys or strictly more than
    [flushInterval] has passed since [lastExport]; when neither holds, the
    call returns having only read the clock: the buffer is as the merge left
    it. *)
Theorem flush_trigger (e : Entry.t) (s sm : State) :
  for_each (merge_event e) (Entry.Events e) s = (Ret tt, sm) →
  minInt64 < flushInterval (writer s) ≤ maxInt64 →
  let now := clock (world s) (readings (world s)) in
  let due := n (writer sm) < Z.of_nat (size (events (writer sm)))
             ∨ flushInterval (writer sm) < now - lastExport (writer sm) in
  ((∃ k, log (world (Write e s).2) = BatchWriting k :: log (world s)) ↔ due)
  ∧ (¬ due → Write e s = (Ret tt, with_world (set_readings S) sm)).
Proof.
  intros E Hi now due. subst now due.
  pose proof (merge_frame _ _ _ _ _ E) as (Hw & Hl & Hn & Hf).
  rewrite <- Hf in Hi. rewrite <- Hw.
  rewrite (Write_run _ _ _ E), <- due_at_spec by done.
  split.
  - rewrite flushIfNeeded_log. destruct (due_at _ _).
    + split; [done|]. intros _. by eexists.
    + split; [|done]. intros [k Hk].
      apply (f_equal length) in Hk. simpl in Hk. lia.
  - intros Hd. rewrite flushIfNeeded_run. by destruct (due_at _ _).
Qed.

(** C5, a witness: at the boundary, the write returns and flushes
    nothing. *)
Lemma flush_trigger_witness :
  Write cpu_entry boundary_state
  = (Ret tt, with_world (set_readings S)
               (for_each (merge_event cpu_entry) (Entry.Events cpu_entry) boundary_state).2).
Proof.
  apply (flush_trigger cpu_entry boundary_state
           (for_each (merge_event cpu_entry) (Entry.Events cpu_entry) boundary_state).2).
  - apply run_eq. vm_compute. reflexivity.
  - vm_compute. split; [reflexivity | discriminate].
  - vm_compute. intros [H|H]; discriminate.
Defined.

(** C7: when a call of [flushIfNeeded] flushes and returns no error, the
    buffer holds no key and [lastExport] is the reading of the clock that the
    call took last. *)
Theorem flush_success_state (s s' : State) :
  flushIfNeeded s = (Ret tt, s') →
  log (world s') ≠ log (world s) →
  events (writer s') = ∅
  ∧ size (events (writer s')) = 0%nat
  ∧ (readings (world s) < readings (world s'))%nat
  ∧ lastExport (writer s') = clock (world s) (pred (readings (world s'))).
Proof.
  rewrite flushIfNeeded_run. destruct (due_at _ _).
  - intros (Hh & He & Hl & Hc)%flush_run _.
    destruct Hc as [(Hr & _)|(batch & s1 & _ & _ & Hx)]; [done|].
    assert (∀ b : bool, execute_fault (world (if b then s else with_world (set_readings S) s))
                        = execute_fault (world s)) as Hf by by intros [].
    assert (∀ b : bool, clock (world (if b then s else with_world (set_readings S) s))
                        = clock (world s)) as Hk by by intros [].
    assert (∀ b : bool, (readings (world s)
                         ≤ readings (world (if b then s else with_world (set_readings S) s)))%nat)
      as Hr by (intros []; simpl; lia).
    rewrite Hf, Hk in Hx. specialize (Hr (bool_decide (n (writer s) < Z.of_nat (size (events (writer s)))))).
    destruct (execute_fault (world s)) as [[err applied]|].
    + by destruct Hx.
    + destruct Hx as (_ & -> & _ & Hlt). simpl. repeat split; try done. lia.
  - intros [= <-]. done.
Qed.

(** C7, a witness: the flush of the merged round-trip entry. *)
Lemma flush_success_state_witness :
  events (writer (flushIfNeeded fresh_state_merged).2) = ∅.
Proof.
  apply (flush_success_state fresh_state_merged (flushIfNeeded fresh_state_merged).2).
  - apply run_eq. vm_compute. reflexivity.
  - vm_compute. discriminate.
Defined.

(** ** A failed flush *)

(** C3, the counterexample: the store fails the batch of a flush; the write
    returns the error, and the aggregate is still in the buffer, with the sum
    of the two events. *)
Lemma flush_failure_discards_counterexample :
  (Write cpu_entry fresh_state_failing).1 = Fail "unavailable"
  ∧ length (sent (world (Write cpu_entry fresh_state_failing).2)) = 1%nat
  ∧ events (writer (Write cpu_entry fresh_state_failing).2)
    = {[ "o:t:cpu:pct" := 1%positive ]}
  ∧ heap (Write cpu_entry fresh_state_failing).2 !! 1%positive
    = Some (mkEvent "cpu" 3 "pct")
  ∧ lastExport (writer (Write cpu_entry fresh_state_failing).2) = zeroTime.
Proof. repeat split; vm_compute; reflexivity. Qed.

(** C3, as amended: if the store fails the batch that a write hands to it,
    the write returns that error, and the flush leaves the buffer as the
    merge of the entry made it: every aggregate stays buffered, with
    [lastExport] as it was. *)
Theorem flush_failure_keeps_buffer
    (e : Entry.t) (s s' : State) (r : outcome unit) (err : error) (applied : Row → bool) :
  Write e s = (r, s') →
  execute_fault (world s) = Some (err, applied) →
  sent (world s') ≠ sent (world s) →
  r = Fail err
  ∧ ∃ sm, for_each (merge_event e) (Entry.Events e) s = (Ret tt, sm)
          ∧ writer s' = writer sm ∧ heap s' = heap sm.
Proof.
  unfold Write. rewrite bind_run.
  destruct (for_each _ _ s) as [[[]|err'|] sm] eqn:E;
    pose proof (merge_frame _ _ _ _ _ E) as (Hw & _).
  - rewrite flushIfNeeded_run. intros Hrun Hx Hsent.
    set (sx := if bool_decide (n (writer sm) < Z.of_nat (size (events (writer sm))))
               then sm else with_world (set_readings S) sm) in Hrun.
    assert (heap sx = heap sm ∧ writer sx = writer sm
            ∧ sent (world sx) = sent (world s)
            ∧ execute_fault (world sx) = execute_fault (world s)) as (Hh & Hb & Hs & Hf).
    { subst sx. case_bool_decide; simpl; by rewrite Hw. }
    destruct (due_at _ _).
    + apply flush_run in Hrun as (Hh' & _ & _ & Hc).
      destruct Hc as [(_ & _ & Hs' & _)|(batch & s1 & _ & _ & Hc)]; [congruence|].
      rewrite Hf, Hx in Hc. destruct Hc as (-> & Hb' & _).
      split; [done|]. exists sm. split; [done|]. split; congruence.
    + injection Hrun as <- <-. simpl in Hsent. congruence.
  - intros [= <- <-] _ Hsent. congruence.
  - intros [= <- <-] _ Hsent. congruence.
Qed.

(** C3, a witness: the write of the round-trip entry to a store that
    fails. *)
Lemma flush_failure_keeps_buffer_witness :
  (Write cpu_entry fresh_state_failing).1 = Fail "unavailable".
Proof.
  apply (flush_failure_keeps_buffer cpu_entry fresh_state_failing
           (Write cpu_entry fresh_state_failing).2
           (Write cpu_entry fresh_state_failing).1 "unavailable" (λ _, false)).
  - by apply run_eq.
  - reflexivity.
  - vm_compute. discriminate.
Defined.

(** ** The first write *)

(** C10: the first write to a new batch writer flushes, whatever [n] and the
    flush interval are, on any clock that reads 1970 or later: [lastExport]
    is the zero [Time], more than any interval before that. *)
Theorem first_write_flushes
    (n0 : Z) (interval : Duration) (h : gmap loc Event) (w : World) (e : Entry.t) :
  minInt64 ≤ interval ≤ maxInt64 →
  unixEpoch ≤ clock w (readings w) →
  Forall (λ p, is_Some (h !! p)) (Entry.Events e) →
  ∃ k, log (world (Write e (mkState h (newBatchWriter n0 interval) w)).2)
       = BatchWriting k :: log w.
Proof.
  intros Hi Hnow Hps.
  set (s := mkState h (newBatchWriter n0 interval) w).
  assert (buffer_valid s) as Hb by (intros k q; simpl; by rewrite lookup_empty).
  destruct (merge_valid e _ s Hb Hps) as (sm & E & _).
  pose proof (merge_frame _ _ _ _ _ E) as (Hw & Hl & Hn & Hf). simpl in *.
  rewrite (Write_run _ _ _ E), flushIfNeeded_log, Hw.
  assert (due_at (writer sm) (clock w (readings w)) = true) as ->; [|by eexists].
  unfold due_at, Time_Before, Time_Add. rewrite Hl, Hf.
  apply orb_true_iff. right. apply Z.ltb_lt.
  pose proof (wrap64_range (-1 * interval)).
  unfold zeroTime, unixEpoch, minInt64, maxInt64 in *. lia.
Qed.

(** C10, a witness: the write of the round-trip entry to a new writer. *)
Lemma first_write_flushes_witness :
  ∃ k, log (world (Write cpu_entry fresh_state).2) = BatchWriting k :: [].
Proof.
  apply (first_write_flushes 10 100000000 cpu_heap (healthy_world unixEpoch 1000) cpu_entry).
  - vm_compute. split; discriminate.
  - vm_compute. discriminate.
  - repeat constructor; by eexists.
Defined.

(** ** Merging the events of one key *)

Lemma same_key_insert_ne (h : gmap loc Event) q x nm u ps vs :
  q ∉ ps →
  Forall2 (λ p v, h !! p = Some (mkEvent nm v u)) ps vs →
  Forall2 (λ p v, <[q := x]> h !! p = Some (mkEvent nm v u)) ps vs.
Proof.
  intros Hq HF. induction HF as [|p v ps vs Hp _ IH]; [constructor|].
  apply not_elem_of_cons in Hq as [Hne Hq].
  constructor; [|by apply IH]. by rewrite lookup_insert_ne.
Qed.

(** Events of a key that the buffer already holds are added, one after the
    other, into the object that the buffer points to. *)
Lemma merge_into o t nm u e q evq ps vs h m le n0 fi w :
  Entry.Origin e = o → Entry.TraceId e = t →
  m !! key o t nm u = Some q →
  h !! q = Some evq →
  q ∉ ps →
  Forall2 (λ p v, h !! p = Some (mkEvent nm v u)) ps vs →
  for_each (merge_event e) ps (mkState h (mkBatchWriter m le n0 fi) w)
  = (Ret tt,
     mkState (<[q := mkEvent (Name evq) (foldl PrimFloat.add (Value evq) vs) (Unit evq)]> h)
       (mkBatchWriter m le n0 fi) w).
Proof.
  intros Ho Ht Hk. revert vs h evq.
  induction ps as [|p ps IH]; intros vs h evq Hq Hnin HF.
  - inversion HF; subst. simpl. rewrite Event_eta, insert_id; done.
  - inversion HF as [|? v ? vs' Hp HF']; subst.
    apply not_elem_of_cons in Hnin as [Hne Hnin].
    simpl. rewrite bind_run.
    unfold merge_event at 1. unfold load, get_writer, store, put_events.
    rewrite !bind_run. simpl. rewrite Hp. rewrite !bind_run. simpl.
    rewrite Hk. rewrite !bind_run. simpl. rewrite Hq. simpl.
    rewrite (insert_id m) by done.
    rewrite (IH vs' (<[q := mkEvent (Name evq) (Value evq + v) (Unit evq)]> h)
                (mkEvent (Name evq) (Value evq + v) (Unit evq))).
    + simpl. by rewrite insert_insert_eq.
    + by rewrite lookup_insert_eq.
    + done.
    + by apply same_key_insert_ne.
Qed.

(** The first event of a key enters the buffer as it is, and the later ones
    are added into it: the buffered value is their sum from left to right. *)
Lemma merge_fresh o t nm u e p v ps vs h m le n0 fi w :
  Entry.Origin e = o → Entry.TraceId e = t →
  m !! key o t nm u = None →
  NoDup (p :: ps) →
  Forall2 (λ p v, h !! p = Some (mkEvent nm v u)) (p :: ps) (v :: vs) →
  for_each (merge_event e) (p :: ps) (mkState h (mkBatchWriter m le n0 fi) w)
  = (Ret tt,
     mkState (<[p := mkEvent nm (foldl PrimFloat.add v vs) u]> h)
       (mkBatchWriter (<[key o t nm u := p]> m) le n0 fi) w).
Proof.
  intros Ho Ht Hk [Hnin _]%NoDup_cons HF.
  inversion HF as [|? ? ? ? Hp Hps]; subst.
  simpl. rewrite bind_run.
  unfold merge_event at 1. unfold load, get_writer, put_events.
  rewrite !bind_run. simpl. rewrite Hp. rewrite !bind_run. simpl.
  rewrite Hk. simpl.
  by rewrite (merge_into (Entry.Origin e) (Entry.TraceId e) nm u e p
                (mkEvent nm v u) ps vs) by (done || apply lookup_insert_eq).
Qed.

(** The events of one key, merged into a buffer without that key: nothing
    changes when there is none, and otherwise the key points to the first of
    them, which holds their [total]. *)
Lemma merge_total o t nm u e ps vs s :
  Entry.Origin e = o → Entry.TraceId e = t →
  events (writer s) !! key o t nm u = None →
  NoDup ps →
  Forall2 (λ p v, heap s !! p = Some (mkEvent nm v u)) ps vs →
  ∃ sm, for_each (merge_event e) ps s = (Ret tt, sm)
        ∧ ((vs = [] ∧ sm = s)
           ∨ ∃ p v, total vs = Some v
                    ∧ events (writer sm) = <[key o t nm u := p]> (events (writer s))
                    ∧ heap sm = <[p := mkEvent nm v u]> (heap s)).
Proof.
  destruct s as [h [m le n0 fi] w]. simpl. intros Ho Ht Hk Hnd HF.
  destruct HF as [|p v ps vs Hp Hps].
  - eexists. split; [done|]. by left.
  - eexists. split.
    { apply (merge_fresh o t nm u); try done. by constructor. }
    right. by exists p, (foldl PrimFloat.add v vs).
Qed.

Lemma merge_total_buffered o t nm u e ps vs s sm :
  Entry.Origin e = o → Entry.TraceId e = t →
  events (writer s) !! key o t nm u = None →
  NoDup ps →
  Forall2 (λ p v, heap s !! p = Some (mkEvent nm v u)) ps vs →
  for_each (merge_event e) ps s = (Ret tt, sm) →
  buffered sm (key o t nm u) = total vs.
Proof.
  intros Ho Ht Hk Hnd HF E.
  destruct (merge_total o t nm u e ps vs s Ho Ht Hk Hnd HF) as (sm' & E' & Hc).
  rewrite E in E'. injection E' as <-. unfold buffered.
  destruct Hc as [[-> ->]|(p & v & -> & -> & ->)].
  - by rewrite Hk.
  - rewrite lookup_insert_eq. simpl. by rewrite lookup_insert_eq.
Qed.

(** ** Writes that flush nothing *)

Lemma later_0 s : later 0 s = s.
Proof. by destruct s as [h b []]. Qed.

Lemma later_S k s : later k (with_world (set_readings S) s) = later (S k) s.
Proof.
  destruct s as [h b []]. unfold later, with_world, set_readings. simpl.
  do 2 f_equal. lia.
Qed.

Lemma Write_log e s :
  ∃ l, log (world (Write e s).2) = (l ++ log (world s))%list.
Proof.
  unfold Write. rewrite bind_run.
  destruct (for_each _ _ s) as [[[]|err|] sm] eqn:E;
    pose proof (merge_frame _ _ _ _ _ E) as (Hw & _).
  - rewrite flushIfNeeded_log, Hw. destruct (due_at _ _).
    + by exists [BatchWriting (size (events (writer sm)))].
    + by exists [].
  - exists []. simpl. by rewrite Hw.
  - exists []. simpl. by rewrite Hw.
Qed.

Lemma writes_log es s :
  ∃ l, log (world (for_each Write es s).2) = (l ++ log (world s))%list.
Proof.
  revert s. induction es as [|e es IH]; intros s; simpl.
  - by exists [].
  - rewrite bind_run. destruct (Write_log e s) as [l1 H1].
    destruct (Write e s) as [[[]|err|] s1]; simpl in H1.
    + destruct (IH s1) as [l2 H2]. exists (l2 ++ l1)%list.
      by rewrite H2, H1, app_assoc.
    + by exists l1.
    + by exists l1.
Qed.

(** A write that returns and logs nothing has merged its entry and read the
    clock, no more. *)
Lemma Write_quiet e s s1 :
  Write e s = (Ret tt, s1) → log (world s1) = log (world s) →
  ∃ sm, for_each (merge_event e) (Entry.Events e) s = (Ret tt, sm)
        ∧ s1 = with_world (set_readings S) sm.
Proof.
  intros Hrun Hlog. pose proof Hrun as Hrun'. unfold Write in Hrun.
  rewrite bind_run in Hrun.
  destruct (for_each _ _ s) as [[[]|err|] sm] eqn:E; try done.
  pose proof (merge_frame _ _ _ _ _ E) as (Hw & _).
  exists sm. split; [done|].
  pose proof (flushIfNeeded_log sm) as Hl. rewrite Hrun in Hl. simpl in Hl.
  rewrite flushIfNeeded_run in Hrun. destruct (due_at _ _).
  - rewrite Hlog, Hw in Hl. apply (f_equal length) in Hl. simpl in Hl. lia.
  - by injection Hrun as <-.
Qed.

Lemma merge_entry e e' ps s :
  Entry.Origin e = Entry.Origin e' → Entry.TraceId e = Entry.TraceId e' →
  for_each (merge_event e) ps s = for_each (merge_event e') ps s.
Proof.
  intros Ho Ht. revert s. induction ps as [|p ps IH]; intros s; simpl; [done|].
  rewrite !bind_run, (merge_event_entry e e') by done.
  destruct (merge_event e' p s) as [[[]|err|] s1]; done.
Qed.

(** Writes that return and log nothing come to one merge of all their
    events, in the order written, however the events are grouped into
    entries. *)
Lemma writes_quiet o t es s s1 :
  Forall (λ e, Entry.Origin e = o ∧ Entry.TraceId e = t) es →
  for_each Write es s = (Ret tt, s1) → log (world s1) = log (world s) →
  ∃ sm, for_each (merge_event (Entry.mk o t [])) (concat (Entry.Events <$> es)) s
        = (Ret tt, sm)
        ∧ s1 = later (length es) sm.
Proof.
  intros Hes. revert s. induction Hes as [|e es [Ho Ht] _ IH]; intros s; simpl.
  - intros [= <-] _. exists s. by rewrite later_0.
  - rewrite bind_run. destruct (Write e s) as [[[]|err|] s'] eqn:E; try done.
    intros Hrun Hlog.
    destruct (Write_log e s) as [l1 H1]. rewrite E in H1. simpl in H1.
    destruct (writes_log es s') as [l2 H2]. rewrite Hrun in H2. simpl in H2.
    assert (l1 = [] ∧ l2 = []) as [-> ->].
    { rewrite H1, Hlog, app_assoc in H2. apply (f_equal length) in H2.
      rewrite !length_app in H2. destruct l1, l2; simpl in *; done || lia. }
    simpl in H1, H2.
    destruct (Write_quiet e s s' E H1) as (sm1 & E1 & ->).
    destruct (IH _ Hrun H2) as (sm2 & E2 & ->).
    rewrite merge_with_world in E2. injection E2 as E2r E2s.
    destruct (for_each (merge_event (Entry.mk o t [])) (concat _) sm1)
      as [r2 sm2'] eqn:E3. simpl in *. subst r2 sm2.
    exists sm2'. rewrite for_each_app, bind_run.
    rewrite (merge_entry _ e) by done. rewrite E1. simpl.
    split; [exact E3|]. apply later_S.
Qed.

(** ** What a flush writes *)

Lemma flush_table_empty s s' :
  flush s = (Ret tt, s') → events (writer s) = ∅ →
  table (world s') = table (world s).
Proof.
  intros (_ & _ & _ & Hc)%flush_run Hm.
  destruct Hc as [(Hr & _)|(batch & s1 & E & _ & Hx)]; [done|].
  rewrite Hm, map_to_list_empty in E. injection E as <- _.
  destruct (execute_fault (world s)) as [[err applied]|].
  - by destruct Hx.
  - destruct Hx as (_ & _ & -> & _). by rewrite app_nil_r.
Qed.

Lemma insert_loop_one_key k q o t nm u ev batch s s1 :
  parseKey k = Some (o, t, nm, u) → heap s !! q = Some ev →
  for_each_acc add_insert [] [(k, q)] s = (Ret batch, s1) →
  ∃ id now, batch = [mkRow id t o nm (Value ev) u now].
Proof.
  intros Hk Hq. simpl. rewrite bind_run. unfold add_insert. simpl.
  rewrite Hk. unfold RandomUUID, load, time_Now, batch_Query. rewrite !bind_run.
  destruct (uuid_source _ _) as [id|err|]; try done.
  rewrite !bind_run. simpl. rewrite Hq. rewrite !bind_run. simpl.
  destruct (batch_query_fault (world s)); [done|].
  intros [= <- _]. by eexists _, _.
Qed.

(** A flush of a buffer of one key that returns has added one row: the
    fields that [parseKey] reads from the key, with the value that the key's
    event has. *)
Lemma flush_table_one_key s s' k q o t nm u ev :
  flush s = (Ret tt, s') →
  events (writer s) = {[k := q]} → parseKey k = Some (o, t, nm, u) →
  heap s !! q = Some ev →
  ∃ id now, table (world s') = (table (world s) ++ [mkRow id t o nm (Value ev) u now])%list.
Proof.
  intros (_ & _ & _ & Hc)%flush_run Hm Hk Hq.
  destruct Hc as [(Hr & _)|(batch & s1 & E & _ & Hx)]; [done|].
  rewrite Hm, map_to_list_singleton in E.
  apply (insert_loop_one_key k q o t nm u ev) in E as (id & now & ->); [|done..].
  destruct (execute_fault (world s)) as [[err applied]|].
  - by destruct Hx.
  - destruct Hx as (_ & _ & -> & _). by exists id, now.
Qed.

(** In a world where nothing fails, the flush of a buffer of one key
    returns. *)
Lemma flush_one_key_returns s k q o t nm u ev id :
  events (writer s) = {[k := q]} → parseKey k = Some (o, t, nm, u) →
  heap s !! q = Some ev →
  uuid_source (world s) (uuids_drawn (world s)) = Ret id →
  batch_query_fault (world s) = None → execute_fault (world s) = None →
  ∃ s', flush s = (Ret tt, s').
Proof.
  intros Hm Hk Hq Hid Hb Hx.
  unfold flush. rewrite bind_run. unfold get_writer at 1.
  rewrite Hm, map_to_list_singleton. cbn [for_each_acc].
  unfold add_insert. cbn [fst snd]. rewrite Hk.
  unfold log_Printf, on_world, RandomUUID, load, time_Now, batch_Query,
    ExecuteBatch, put_events, put_lastExport, mbind, M_bind, mret, M_ret.
  cbn [heap writer world set_log set_uuids_drawn set_readings
       uuid_source uuids_drawn batch_query_fault execute_fault].
  rewrite Hid. cbn [heap]. rewrite Hq.
  cbn [world set_log set_uuids_drawn set_readings batch_query_fault]. rewrite Hb.
  cbn [world set_log set_uuids_drawn set_readings execute_fault]. rewrite Hx.
  by eexists.
Qed.

(** ** What a query reads *)

Lemma field_matches_refl x : field_matches x x = true.
Proof. unfold field_matches. rewrite String.eqb_refl. apply orb_true_r. Qed.

Lemma matches_own t o id nm v u now :
  matches (Filter.mk t o "") (mkRow id t o nm v u now) = true.
Proof. unfold matches. simpl. by rewrite !field_matches_refl. Qed.

Lemma filter_no_match (f : Filter.t) rows :
  Forall (λ r, matches f r = false) rows →
  filter (λ r, matches f r = true) rows = [].
Proof.
  induction 1 as [|r rows Hr _ IH]; [done|].
  rewrite filter_cons, IH. case_decide; congruence.
Qed.

Lemma Query_no_row w req :
  cql_fault w (filter_of req) = None → select_fault w = None →
  Forall (λ r, matches (filter_of req) r = false) (table w) →
  Query w req = Ret (mkQueryResponse []).
Proof.
  intros Hc Hs Hrows. rewrite Query_unfold, Hc, Hs. unfold scanned.
  rewrite filter_no_match by done. simpl. by rewrite map_to_list_empty.
Qed.

(** One row of the request's trace id and origin, after rows that do not
    match: the query answers with the event of that row. *)
Lemma Query_one_row w t o rows id nm v u now :
  cql_fault w (Filter.mk t o "") = None → select_fault w = None →
  table w = (rows ++ [mkRow id t o nm v u now])%list →
  Forall (λ r, matches (Filter.mk t o "") r = false) rows →
  Query w (QueryRequest.mk t o "") = Ret (mkQueryResponse [mkEvent nm v u]).
Proof.
  intros Hc Hs Ht Hrows. rewrite Query_unfold. unfold filter_of. simpl.
  rewrite Hc, Hs. unfold scanned, filter_of. simpl.
  rewrite Ht, filter_app, filter_no_match by done. simpl.
  rewrite filter_cons_True, filter_nil by apply matches_own. simpl.
  rewrite lookup_empty, insert_empty, map_to_list_singleton. done.
Qed.

(** ** From the buffer to the answer of a query *)

Lemma maybe_ticked (c : bool) s :
  let sx := if c then s else with_world (set_readings S) s in
  heap sx = heap s ∧ writer sx = writer s
  ∧ table (world sx) = table (world s)
  ∧ log (world sx) = log (world s)
  ∧ uuids_drawn (world sx) = uuids_drawn (world s)
  ∧ environment (world sx) = environment (world s).
Proof. by destruct c. Qed.

Lemma environment_faults w w' :
  environment w' = environment w →
  uuid_source w' = uuid_source w
  ∧ batch_query_fault w' = batch_query_fault w
  ∧ execute_fault w' = execute_fault w
  ∧ cql_fault w' = cql_fault w ∧ select_fault w' = select_fault w.
Proof. unfold environment. intros [= _ -> -> -> -> ->]. done. Qed.

(** A call of [flushIfNeeded] that flushed a buffer of one key and returned:
    a query for the key's trace id and origin, which no earlier row has,
    answers with the key's event. *)
Lemma flushed_query_one_key s s' o t nm u q ev :
  flushIfNeeded s = (Ret tt, s') → log (world s') ≠ log (world s) →
  events (writer s) = {[key o t nm u := q]} → heap s !! q = Some ev →
  has_sep o = false → has_sep t = false → has_sep nm = false → has_sep u = false →
  cql_fault (world s) (Filter.mk t o "") = None → select_fault (world s) = None →
  Forall (λ r, matches (Filter.mk t o "") r = false) (table (world s)) →
  Query (world s') (QueryRequest.mk t o "")
  = Ret (mkQueryResponse [mkEvent nm (Value ev) u]).
Proof.
  rewrite flushIfNeeded_run. destruct (due_at _ _); [|by intros [= <-]].
  pose proof (maybe_ticked (bool_decide (n (writer s) < Z.of_nat (size (events (writer s))))) s)
    as (Hh & Hb & Ht & _ & _ & He).
  simpl in Hh, Hb, Ht, He.
  set (sx := if bool_decide _ then s else _) in *.
  intros Hf _ Hm Hq Ho Htr Hnm Hu Hc Hs Hrows.
  pose proof Hf as (_ & He' & _)%flush_run.
  rewrite He in He'. apply environment_faults in He' as (_ & _ & _ & Hc' & Hs').
  destruct (flush_table_one_key sx s' (key o t nm u) q o t nm u ev Hf) as (id & now & Htab).
  - by rewrite Hb.
  - by apply parseKey_key_sep_free.
  - by rewrite Hh.
  - apply (Query_one_row _ t o (table (world s)) id nm (Value ev) u now).
    + by rewrite Hc'.
    + by rewrite Hs'.
    + by rewrite Htab, Ht.
    + done.
Qed.

(** The same for an empty buffer: the query finds nothing. *)
Lemma flushed_query_no_key s s' req :
  flushIfNeeded s = (Ret tt, s') →
  events (writer s) = ∅ →
  cql_fault (world s) (filter_of req) = None → select_fault (world s) = None →
  Forall (λ r, matches (filter_of req) r = false) (table (world s)) →
  Query (world s') req = Ret (mkQueryResponse []).
Proof.
  rewrite flushIfNeeded_run.
  pose proof (maybe_ticked (bool_decide (n (writer s) < Z.of_nat (size (events (writer s))))) s)
    as (Hh & Hb & Ht & _ & _ & He).
  simpl in Hh, Hb, Ht, He.
  set (sx := if bool_decide _ then s else _) in *.
  intros Hf Hm Hc Hs Hrows. apply Query_no_row.
  - destruct (due_at _ _).
    + pose proof Hf as (_ & He' & _)%flush_run. rewrite He in He'.
      apply environment_faults in He' as (_ & _ & _ & -> & _). done.
    + by injection Hf as <-.
  - destruct (due_at _ _).
    + pose proof Hf as (_ & He' & _)%flush_run. rewrite He in He'.
      apply environment_faults in He' as (_ & _ & _ & _ & ->). done.
    + by injection Hf as <-.
  - destruct (due_at _ _).
    + rewrite (flush_table_empty sx s' Hf), Ht by by rewrite Hb. done.
    + by injection Hf as <-.
Qed.

(** In a world where nothing fails, a due flush of a buffer of one key
    returns, and has logged its line. *)
Lemma flushIfNeeded_one_key_returns s k q o t nm u ev id :
  due_at (writer s) (clock (world s) (readings (world s))) = true →
  events (writer s) = {[k := q]} → parseKey k = Some (o, t, nm, u) →
  heap s !! q = Some ev →
  uuid_source (world s) (uuids_drawn (world s)) = Ret id →
  batch_query_fault (world s) = None → execute_fault (world s) = None →
  ∃ s', flushIfNeeded s = (Ret tt, s') ∧ log (world s') ≠ log (world s).
Proof.
  intros Hd Hm Hk Hq Hid Hb Hx.
  pose proof (flushIfNeeded_log s) as Hl. rewrite Hd in Hl.
  rewrite flushIfNeeded_run, Hd in *.
  pose proof (maybe_ticked (bool_decide (n (writer s) < Z.of_nat (size (events (writer s))))) s)
    as (Hh & Hw & _ & _ & Hu & He).
  simpl in Hh, Hw, Hu, He.
  set (sx := if bool_decide _ then s else _) in *.
  apply environment_faults in He as (He1 & He2 & He3 & _).
  destruct (flush_one_key_returns sx k q o t nm u ev id) as [s' Hs'].
  - by rewrite Hw.
  - done.
  - by rewrite Hh.
  - by rewrite He1, Hu.
  - by rewrite He2.
  - by rewrite He3.
  - exists s'. split; [done|]. rewrite Hs' in Hl. simpl in Hl. rewrite Hl.
    intros H. apply (f_equal length) in H. simpl in H. lia.
Qed.

(** ** The round trip *)

(** C1: the entry of origin "o" and trace id "t" with the events cpu 1 pct
    and cpu 2 pct, written to an empty buffer in a world where nothing fails,
    with the flush forced (by capacity or by time); then the query for trace
    id "t" and origin "o", which no earlier row has, answers with exactly the
    event cpu 3 pct. *)
Theorem write_flush_query_round_trip
    (h : gmap loc Event) (b : batchWriter) (w : World) (p q : loc) (id : UUID) :
  p ≠ q →
  h !! p = Some (mkEvent "cpu" 1 "pct") → h !! q = Some (mkEvent "cpu" 2 "pct") →
  events b = ∅ →
  uuid_source w (uuids_drawn w) = Ret id →
  batch_query_fault w = None → execute_fault w = None →
  cql_fault w (Filter.mk "t" "o" "") = None → select_fault w = None →
  Forall (λ r, matches (Filter.mk "t" "o" "") r = false) (table w) →
  n b < 1
  ∨ Time_Before (lastExport b)
      (Time_Add (clock w (readings w)) (wrap64 (-1 * flushInterval b))) = true →
  ∃ s', Write (Entry.mk "o" "t" [p; q]) (mkState h b w) = (Ret tt, s')
        ∧ Query (world s') (QueryRequest.mk "t" "o" "")
          = Ret (mkQueryResponse [mkEvent "cpu" 3 "pct"]).
Proof.
  intros Hpq Hp Hq Hm Hid Hbq Hx Hc Hs Hrows Hforce.
  destruct b as [m le n0 fi]. simpl in *. subst m.
  pose proof (merge_fresh "o" "t" "cpu" "pct" (Entry.mk "o" "t" [p; q]) p 1%float [q] [2%float]
                h ∅ le n0 fi w eq_refl eq_refl (lookup_empty _)) as E.
  rewrite insert_empty in E.
  set (sm := mkState _ (mkBatchWriter {[ _ := p ]} le n0 fi) w) in E.
  assert (for_each (merge_event (Entry.mk "o" "t" [p; q])) [p; q] (mkState h (mkBatchWriter ∅ le n0 fi) w)
          = (Ret tt, sm)) as E'.
  { apply E.
    - repeat constructor; [|apply not_elem_of_nil]. by intros ->%list_elem_of_singleton.
    - by repeat constructor. }
  rewrite (Write_run _ _ _ E').
  destruct (flushIfNeeded_one_key_returns sm (key "o" "t" "cpu" "pct") p "o" "t" "cpu" "pct"
              (mkEvent "cpu" (1 + 2) "pct") id) as (s' & Hrun & Hlog); try done.
  - unfold due_at. simpl. rewrite map_size_singleton. apply orb_true_iff.
    destruct Hforce as [Hn|Ht]; [left | by right].
    apply bool_decide_eq_true. simpl. lia.
  - apply lookup_insert_eq.
  - exists s'. split; [done|].
    apply (flushed_query_one_key sm s' "o" "t" "cpu" "pct" p (mkEvent "cpu" (1 + 2) "pct"));
      try done.
    apply lookup_insert_eq.
Qed.

(** C1, a witness: a new writer, and the events at the locations 1 and
    2. *)
Lemma write_flush_query_round_trip_witness :
  ∃ s', Write (Entry.mk "o" "t" [1%positive; 2%positive]) fresh_state = (Ret tt, s')
        ∧ Query (world s') (QueryRequest.mk "t" "o" "")
          = Ret (mkQueryResponse [mkEvent "cpu" 3 "pct"]).
Proof.
  apply (write_flush_query_round_trip cpu_heap (newBatchWriter 10 100000000)
           (healthy_world unixEpoch 1000) 1%positive 2%positive 0%N);
    try reflexivity.
  - discriminate.
  - constructor.
  - right. vm_compute. reflexivity.
Defined.

(** ** The order and the grouping of the events of one key *)

Lemma float_0_ne_1 : 0%float ≠ 1%float.
Proof.
  intros H. apply (f_equal (λ x, PrimFloat.eqb x 0)) in H.
  vm_compute in H. discriminate.
Qed.

(** C6, the counterexample: the same three events of one key, written in two
    orders, leave two different values in the buffer; and an entry that
    holds one event object of value 1 three times leaves 4 there, the buffer
    pointing to the object that it adds to itself. *)
Lemma merge_order_counterexample :
  (buffered (Write (Entry.mk "o" "t" [1; 2; 3]%positive) rounding_state).2 "o:t:cpu:pct"
   = Some 0%float
   ∧ buffered (Write (Entry.mk "o" "t" [1; 3; 2]%positive) rounding_state).2 "o:t:cpu:pct"
     = Some 1%float
   ∧ 0%float ≠ 1%float)
  ∧ buffered (Write (Entry.mk "o" "t" [2; 2; 2]%positive) rounding_state).2 "o:t:cpu:pct"
    = Some 4%float.
Proof.
  split; [|vm_compute; reflexivity].
  split; [vm_compute; reflexivity|].
  split; [vm_compute; reflexivity|].
  exact float_0_ne_1.
Qed.

(** C6, as amended: events of one key, each an object of its own, written
    in entries to an empty buffer.  As long as no write flushes, the buffer
    holds for the key the [float64] sum of the values written so far, taken
    from left to right in the order written, however they are grouped into
    entries; and when the next write flushes and returns, a query for the
    trace id and the origin, which no earlier row has, answers with that sum
    over all the values.  (Two orders give the same value when their
    left-to-right sums agree.) *)
Theorem merge_sums_in_write_order
    (o t nm u : string) (es : list Entry.t) (last : Entry.t)
    (vs vs_last : list float) (s s1 : State) :
  Forall (λ e, Entry.Origin e = o ∧ Entry.TraceId e = t) es →
  Entry.Origin last = o → Entry.TraceId last = t →
  NoDup (concat (Entry.Events <$> es) ++ Entry.Events last) →
  Forall2 (λ p v, heap s !! p = Some (mkEvent nm v u)) (concat (Entry.Events <$> es)) vs →
  Forall2 (λ p v, heap s !! p = Some (mkEvent nm v u)) (Entry.Events last) vs_last →
  events (writer s) = ∅ →
  for_each Write es s = (Ret tt, s1) →
  log (world s1) = log (world s) →
  buffered s1 (key o t nm u) = total vs
  ∧ ∀ s2,
      Write last s1 = (Ret tt, s2) → log (world s2) ≠ log (world s1) →
      has_sep o = false → has_sep t = false → has_sep nm = false → has_sep u = false →
      cql_fault (world s) (Filter.mk t o "") = None → select_fault (world s) = None →
      Forall (λ r, matches (Filter.mk t o "") r = false) (table (world s)) →
      Query (world s2) (QueryRequest.mk t o "")
      = Ret (mkQueryResponse (answer nm u (total (vs ++ vs_last)))).
Proof.
  intros Hes Hlo Hlt Hnd Hvs Hvl Hm Hrun Hquiet.
  assert (events (writer s) !! key o t nm u = None) as Hk by by rewrite Hm.
  destruct (writes_quiet o t es s s1 Hes Hrun Hquiet) as (sm & E & ->).
  split.
  - apply NoDup_app in Hnd as [Hnd _].
    exact (merge_total_buffered o t nm u (Entry.mk o t []) _ vs s sm
             eq_refl eq_refl Hk Hnd Hvs E).
  - intros s2 Hlast Hlog Ho Ht Hnm Hu Hc Hs Hrows.
    unfold Write in Hlast. rewrite bind_run in Hlast.
    unfold later in Hlast, Hlog. rewrite merge_with_world in Hlast.
    rewrite (merge_entry last (Entry.mk o t [])) in Hlast by done.
    destruct (merge_total o t nm u (Entry.mk o t [])
                (concat (Entry.Events <$> es) ++ Entry.Events last) (vs ++ vs_last) s)
      as (sm2 & E2 & Hcases); try done.
    { by apply Forall2_app. }
    rewrite for_each_app, bind_run, E in E2. rewrite E2 in Hlast. simpl in Hlast.
    pose proof (merge_frame _ _ _ _ _ E) as (Hw1 & _).
    pose proof (merge_frame _ _ _ _ _ E2) as (Hw2 & _).
    simpl in Hlog. rewrite Hw1 in Hlog.
    destruct Hcases as [[-> ->]|(p & v & -> & Hev & Hh)].
    + apply (flushed_query_no_key _ s2 (QueryRequest.mk t o "") Hlast); done.
    + replace v with (Value (mkEvent nm v u)) by done.
      apply (flushed_query_one_key _ s2 o t nm u p (mkEvent nm v u) Hlast); simpl.
      * by rewrite Hw2, Hw1.
      * by rewrite Hev, Hm, insert_empty.
      * rewrite Hh. apply lookup_insert_eq.
      * done.
      * done.
      * done.
      * done.
      * by rewrite Hw2, Hw1.
      * by rewrite Hw2, Hw1.
      * by rewrite Hw2, Hw1.
Qed.

(** C6, a witness: three writes of one event each, 1e16, 1 and -1e16, of
    which the third flushes: the buffer holds 1e16 before it, and the query
    answers 0. *)
Lemma merge_sums_in_write_order_witness :
  buffered
    (for_each Write [Entry.mk "o" "t" [1%positive]; Entry.mk "o" "t" [2%positive]]
       rounding_state).2
    "o:t:cpu:pct"
  = Some 1e16%float
  ∧ Query
      (world (Write (Entry.mk "o" "t" [3%positive])
                (for_each Write [Entry.mk "o" "t" [1%positive]; Entry.mk "o" "t" [2%positive]]
                   rounding_state).2).2)
      (QueryRequest.mk "t" "o" "")
    = Ret (mkQueryResponse [mkEvent "cpu" 0 "pct"]).
Proof.
  destruct (merge_sums_in_write_order "o" "t" "cpu" "pct"
              [Entry.mk "o" "t" [1%positive]; Entry.mk "o" "t" [2%positive]]
              (Entry.mk "o" "t" [3%positive]) [1e16; 1]%float [(-1e16)%float]
              rounding_state
              (for_each Write [Entry.mk "o" "t" [1%positive]; Entry.mk "o" "t" [2%positive]]
                 rounding_state).2) as [H1 H2].
  - by repeat constructor.
  - reflexivity.
  - reflexivity.
  - apply (bool_decide_unpack _). vm_compute. exact I.
  - by repeat constructor.
  - by repeat constructor.
  - reflexivity.
  - apply run_eq. vm_compute. reflexivity.
  - vm_compute. reflexivity.
  - split; [exact H1|].
    apply (H2 (Write (Entry.mk "o" "t" [3%positive])
                 (for_each Write [Entry.mk "o" "t" [1%positive]; Entry.mk "o" "t" [2%positive]]
                    rounding_state).2).2).
    + apply run_eq. vm_compute. reflexivity.
    + vm_compute. discriminate.
    + reflexivity.
    + reflexivity.
    + reflexivity.
    + reflexivity.
    + reflexivity.
    + reflexivity.
    + constructor.
Defined.

(** C8, a witness: the events named zz, aa and mm, written and flushed; the
    answer is in the order aa, mm, zz. *)
Lemma Query_sorted_by_name_witness :
  Name <$> Events (mkQueryResponse [mkEvent "aa" 2 "ms"; mkEvent "mm" 3 "ms"; mkEvent "zz" 1 "ms"])
  = ["aa"; "mm"; "zz"]
  ∧ StronglySorted name_le
      (Events (mkQueryResponse [mkEvent "aa" 2 "ms"; mkEvent "mm" 3 "ms"; mkEvent "zz" 1 "ms"])).
Proof.
  split; [reflexivity|].
  apply (proj1 Query_sorted_by_name names_world (QueryRequest.mk "t" "o" "")).
  vm_compute. reflexivity.
Defined.

(** C4, the counterexample: a query for an origin alone scans the rows of
    both traces and sums them into one event, though their trace ids
    differ; and two rows of one trace and origin whose names and units differ
    are summed into one event when a separator makes their keys equal. *)
Lemma Query_key_counterexample :
  ((λ r, (row_trace_id r, row_origin r, row_event r, row_unit r)) <$> table two_traces_world
   = [("t1", "o", "cpu", "pct"); ("t2", "o", "cpu", "pct")]
   ∧ Query two_traces_world (QueryRequest.mk "" "o" "")
     = Ret (mkQueryResponse [mkEvent "cpu" 3 "pct"]))
  ∧ ((λ r, (row_trace_id r, row_origin r, row_event r, row_unit r)) <$> table collision_world
     = [("t", "o", "a:b", "c"); ("t", "o", "a", "b:c")]
     ∧ Query collision_world (QueryRequest.mk "t" "o" "")
       = Ret (mkQueryResponse [mkEvent "a:b" 3 "c"])).
Proof. repeat split; vm_compute; reflexivity. Qed.

(** C4, a witness: three rows, two of them cpu in pct. *)
Lemma scan_groups_by_name_and_unit_witness :
  foldl (scan_row (QueryRequest.mk "" "o" "")) ∅
    [("cpu", 1%float, "pct"); ("mem", 5%float, "mb"); ("cpu", 2%float, "pct")]
    !! key "" "o" "cpu" "pct"
  = Some (mkEvent "cpu" 3 "pct").
Proof.
  exact (scan_groups_by_name_and_unit (QueryRequest.mk "" "o" "")
           [("cpu", 1%float, "pct"); ("mem", 5%float, "mb"); ("cpu", 2%float, "pct")]
           "cpu" "pct"
           ltac:(by repeat constructor) eq_refl).
Defined.

(** * More of the server *)

(** * More of the code *)

(** ** Keys and their parts *)

Lemma Split_length s : length (Split s) = S (count_sep s).
Proof.
  induction s as [|c r IH]; simpl; [done|].
  destruct (Ascii.eqb c sep); simpl; [by rewrite IH|].
  destruct (Split r); simpl in *; done.
Qed.

Lemma parseKey_Some_length k : is_Some (parseKey k) ↔ (4 ≤ length (Split k))%nat.
Proof.
  unfold parseKey. destruct (Split k) as [|a [|b [|c [|d l]]]]; simpl;
    split; intros H; try lia; try (by destruct H); by eexists.
Qed.

(** X2: [parseKey] panics (an index out of range) exactly on the strings
    with fewer than three separators; on the others it returns four parts,
    none of which holds a separator. *)
Theorem parseKey_panics_iff (k : string) :
  (parseKey k = None ↔ (count_sep k < 3)%nat)
  ∧ (∀ o t n u, parseKey k = Some (o, t, n, u) →
       has_sep o = false ∧ has_sep t = false ∧ has_sep n = false ∧ has_sep u = false).
Proof.
  split; [|intros o t n u; apply parseKey_parts_sep_free].
  pose proof (parseKey_Some_length k) as H. rewrite Split_length in H.
  rewrite <- not_eq_None_Some in H. destruct (parseKey k); split; intros; try done.
  - assert ((4 ≤ S (count_sep k))%nat) by (apply H; done). lia.
  - destruct (decide ((4 ≤ S (count_sep k))%nat)) as [Hd|Hd]; [|lia].
    apply H in Hd. done.
Qed.

(** X3: [key] tells any two tuples of fields apart, as long as origin, trace
    id and name hold no separator (the unit may): equal keys, equal
    fields.  So [Write] adds two events of such fields into one buffered
    aggregate only when all four fields agree. *)
Theorem key_injective (o t n u o' t' n' u' : string) :
  has_sep o = false → has_sep t = false → has_sep n = false →
  has_sep o' = false → has_sep t' = false → has_sep n' = false →
  key o t n u = key o' t' n' u' →
  o = o' ∧ t = t' ∧ n = n' ∧ u = u'.
Proof.
  intros Ho Ht Hn Ho' Ht' Hn'. rewrite !key_cons.
  intros [-> H1]%sep_free_app_inj; [|done..].
  apply sep_free_app_inj in H1 as [-> H2]; [|done..].
  apply sep_free_app_inj in H2 as [-> ->]; done.
Qed.

(** X3, a witness. *)
Lemma key_injective_witness :
  "o" = "o" ∧ "t" = "t" ∧ "cpu" = "cpu" ∧ "a:b" = "a:b".
Proof.
  apply (key_injective "o" "t" "cpu" "a:b" "o" "t" "cpu" "a:b"); reflexivity.
Defined.

(** ** The sorter *)

Lemma name_lt_irrefl a : name_lt a a = false.
Proof.
  unfold name_lt, String.ltb.
  destruct (String.compare (Name a) (Name a)) eqn:E; try done.
  pose proof (String.compare_antisym (Name a) (Name a)) as H.
  rewrite E in H. done.
Qed.

Lemma name_lt_trans a b c : name_lt a b = true → name_lt b c = true → name_lt a c = true.
Proof.
  unfold name_lt. rewrite !ltb_lt. apply OrderedTypeEx.String_as_OT.lt_trans.
Qed.

Lemma name_lt_asym a b : name_lt a b = true → name_lt b a = false.
Proof.
  intros H. destruct (name_lt b a) eqn:E; [|done].
  pose proof (name_lt_trans _ _ _ H E) as H'. by rewrite name_lt_irrefl in H'.
Qed.

Lemma name_lt_false_eq a b :
  name_lt a b = false → name_lt b a = false → Name a = Name b.
Proof.
  unfold name_lt. intros H1%ltb_false_leb H2%ltb_false_leb.
  by apply String.leb_antisym.
Qed.

Lemma Less_Some s i j c :
  Less s i j = Some c ↔
  ∃ a b, sorter_events s !! i = Some a ∧ sorter_events s !! j = Some b ∧ c = name_lt a b.
Proof.
  unfold Less, name_lt. destruct (sorter_events s !! i) as [a|]; simpl.
  - destruct (sorter_events s !! j) as [b|]; simpl.
    + split; [intros [= <-]; by eexists _, _ | intros (? & ? & [= <-] & [= <-] & ->); done].
    + split; [done | intros (? & ? & _ & ? & _); done].
  - split; [done | intros (? & ? & ? & _); done].
Qed.

(** X4: [Less] is the strict weak order that [sort.Sort] asks for: it
    panics exactly when an index is out of range, and within range it is
    irreflexive, asymmetric and transitive, and so is being neither less nor
    greater (having the same name). *)
Theorem Less_strict_weak_order (s : eventSorter) (i j k : nat) :
  (Less s i j = None ↔ ¬ (i < Len s ∧ j < Len s)%nat)
  ∧ ((i < Len s)%nat → Less s i i = Some false)
  ∧ (Less s i j = Some true → Less s j i = Some false)
  ∧ (Less s i j = Some true → Less s j k = Some true → Less s i k = Some true)
  ∧ (Less s i j = Some false → Less s j i = Some false →
     Less s j k = Some false → Less s k j = Some false →
     Less s i k = Some false ∧ Less s k i = Some false).
Proof.
  repeat split.
  - unfold Less, Len. intros H [Hi Hj].
    apply lookup_lt_is_Some in Hi as [a Ha]. apply lookup_lt_is_Some in Hj as [b Hb].
    by rewrite Ha, Hb in H.
  - unfold Less, Len. intros H.
    destruct (sorter_events s !! i) as [a|] eqn:Ha; simpl; [|done].
    destruct (sorter_events s !! j) as [b|] eqn:Hb; simpl; [|done].
    destruct H. split; by eapply lookup_lt_Some.
  - unfold Len. intros [a Ha]%lookup_lt_is_Some.
    apply Less_Some. exists a, a. by rewrite name_lt_irrefl.
  - intros (a & b & Ha & Hb & H)%Less_Some. apply Less_Some.
    exists b, a. by rewrite (name_lt_asym a b).
  - intros (a & b & Ha & Hb & H1)%Less_Some (b' & c & Hb' & Hc & H2)%Less_Some.
    rewrite Hb in Hb'. injection Hb' as <-. apply Less_Some.
    exists a, c. by rewrite (name_lt_trans a b c).
  - apply Less_Some in H as (a & b & Ha & Hb & H).
    apply Less_Some in H0 as (b1 & a1 & Hb1 & Ha1 & H0).
    apply Less_Some in H1 as (b2 & c & Hb2 & Hc & H1).
    apply Less_Some in H2 as (c3 & b3 & Hc3 & Hb3 & H2).
    simplify_eq. apply Less_Some. exists a, c. split; [done|]. split; [done|].
    pose proof (name_lt_false_eq a b) as E1. pose proof (name_lt_false_eq b c) as E2.
    unfold name_lt in *. rewrite E1, E2 by done. symmetry. apply name_lt_irrefl.
  - apply Less_Some in H as (a & b & Ha & Hb & H).
    apply Less_Some in H0 as (b1 & a1 & Hb1 & Ha1 & H0).
    apply Less_Some in H1 as (b2 & c & Hb2 & Hc & H1).
    apply Less_Some in H2 as (c3 & b3 & Hc3 & Hb3 & H2).
    simplify_eq. apply Less_Some. exists c, a. split; [done|]. split; [done|].
    pose proof (name_lt_false_eq a b) as E1. pose proof (name_lt_false_eq b c) as E2.
    unfold name_lt in *. rewrite E1, E2 by done. symmetry. apply name_lt_irrefl.
Qed.

(** X5: [Swap] panics exactly when an index is out of range; within range it
    exchanges the two events and moves no other, keeps the length and the
    events of the slice, and undoes itself. *)
Theorem Swap_exchanges (s : eventSorter) (i j : nat) :
  (Swap s i j = None ↔ ¬ (i < Len s ∧ j < Len s)%nat)
  ∧ ∀ s', Swap s i j = Some s' →
      Len s' = Len s
      ∧ sorter_events s' !! i = sorter_events s !! j
      ∧ sorter_events s' !! j = sorter_events s !! i
      ∧ (∀ k, k ≠ i → k ≠ j → sorter_events s' !! k = sorter_events s !! k)
      ∧ sorter_events s' ≡ₚ sorter_events s
      ∧ Swap s' i j = Some s.
Proof.
  destruct s as [l]. unfold Swap, Len. simpl. split.
  - destruct (l !! i) as [a|] eqn:Ha; simpl.
    + destruct (l !! j) as [b|] eqn:Hb; simpl.
      * split; [done|]. intros H. destruct H. split; by eapply lookup_lt_Some.
      * split; [|done]. intros _ [_ Hj]. apply lookup_lt_is_Some in Hj as [? ?]. congruence.
    + split; [|done]. intros _ [Hi _]. apply lookup_lt_is_Some in Hi as [? ?]. congruence.
  - intros s'. destruct (l !! i) as [a|] eqn:Ha; simpl; [|done].
    destruct (l !! j) as [b|] eqn:Hb; simpl; [|done].
    intros [= <-]. simpl.
    pose proof (lookup_lt_Some _ _ _ Ha) as Hi. pose proof (lookup_lt_Some _ _ _ Hb) as Hj.
    assert (<[i:=b]> (<[j:=a]> l) !! i = Some b) as Li.
    { apply list_lookup_insert_eq. by rewrite length_insert. }
    assert (<[i:=b]> (<[j:=a]> l) !! j = Some a) as Lj.
    { destruct (decide (i = j)) as [->|Hne].
      - rewrite list_lookup_insert_eq by by rewrite length_insert. congruence.
      - rewrite list_lookup_insert_ne by done. by apply list_lookup_insert_eq. }
    assert (∀ k, k ≠ i → k ≠ j → <[i:=b]> (<[j:=a]> l) !! k = l !! k) as Lk.
    { intros k Hki Hkj. by rewrite !list_lookup_insert_ne. }
    split; [by rewrite !length_insert|].
    split; [congruence|]. split; [congruence|]. split; [done|].
    assert (<[i:=a]> (<[j:=b]> (<[i:=b]> (<[j:=a]> l))) = l) as Hback.
    { apply list_eq. intros k.
      destruct (decide (k = i)) as [->|Hki].
      - rewrite list_lookup_insert_eq by by rewrite !length_insert. done.
      - rewrite list_lookup_insert_ne by done.
        destruct (decide (k = j)) as [->|Hkj].
        + rewrite list_lookup_insert_eq by by rewrite !length_insert. done.
        + rewrite list_lookup_insert_ne by done. by apply Lk. }
    split.
    + destruct (decide (i = j)) as [->|Hne].
      * rewrite list_insert_insert_eq. assert (a = b) as -> by congruence.
        by rewrite list_insert_id.
      * apply Permutation_inj. split; [by rewrite !length_insert|].
        exists (λ k, if decide (k = i) then j else if decide (k = j) then i else k).
        split.
        -- intros x y. repeat case_decide; congruence.
        -- intros k. repeat case_decide; subst; try congruence. by rewrite Lk.
    + rewrite Li, Lj. simpl. by rewrite Hback.
Qed.

(** ** What a write keeps *)

Lemma count_sep_app a r : count_sep (a ++ String sep r) = (count_sep a + S (count_sep r))%nat.
Proof.
  induction a as [|c a IH]; simpl; [done|].
  destruct (Ascii.eqb c sep); simpl; by rewrite IH.
Qed.

Lemma parseKey_key_Some o t n u : is_Some (parseKey (key o t n u)).
Proof.
  apply parseKey_Some_length. rewrite Split_length, key_cons, !count_sep_app. lia.
Qed.

Lemma merge_event_keys_parse e p s r s' :
  merge_event e p s = (r, s') → keys_parse s → keys_parse s'.
Proof.
  unfold merge_event, load, get_writer, store, put_events. rewrite !bind_run.
  destruct (heap s !! p) as [event|]; [|by intros [= <- <-]].
  rewrite !bind_run.
  destruct (events (writer s) !! _) as [q|] eqn:Hq.
  - rewrite !bind_run. destruct (heap s !! q) as [v|]; [|by intros [= <- <-]].
    simpl. intros [= <- <-] Hk k' q'. simpl.
    rewrite (insert_id (events (writer s))) by done. apply Hk.
  - intros [= <- <-] Hk k' q'. simpl. rewrite lookup_insert. case_decide.
    + intros _. subst k'. apply parseKey_key_Some.
    + apply Hk.
Qed.

Lemma merge_keys_parse e ps s r s' :
  for_each (merge_event e) ps s = (r, s') → keys_parse s → keys_parse s'.
Proof.
  revert s. induction ps as [|p ps IH]; intros s; simpl.
  - by intros [= <- <-].
  - rewrite bind_run. destruct (merge_event e p s) as [[[]|err|] s1] eqn:E;
      pose proof (merge_event_keys_parse _ _ _ _ _ E) as H1.
    + intros E2 Hk. eapply IH; eauto.
    + intros [= <- <-]. done.
    + intros [= <- <-]. done.
Qed.

(** The loop of [Write] returns when every pointer of the entry points to an
    event, and panics at the first that does not. *)
Lemma merge_outcome e ps s :
  buffer_valid s →
  ∃ s', for_each (merge_event e) ps s
        = (if decide (Forall (λ p, is_Some (heap s !! p)) ps) then Ret tt else Panic, s')
        ∧ buffer_valid s' ∧ dom (heap s') = dom (heap s).
Proof.
  revert s. induction ps as [|p ps IH]; intros s Hb; cbn [for_each].
  - exists s. rewrite decide_True by constructor. done.
  - rewrite bind_run. destruct (heap s !! p) as [ev|] eqn:Hp.
    + destruct (merge_event_valid e p s Hb) as (s1 & E & Hb1 & Hd); [by eexists|].
      rewrite E. destruct (IH s1 Hb1) as (s' & E' & Hb' & Hd').
      exists s'. rewrite E'. split; [|split; [done|congruence]].
      f_equal. assert (∀ p', is_Some (heap s1 !! p') ↔ is_Some (heap s !! p')) as Hiff.
      { intros p'. rewrite <- !elem_of_dom. by rewrite Hd. }
      repeat case_decide; try done.
      * exfalso. apply H0. constructor; [by eexists|].
        eapply Forall_impl; [exact H|]. intros p'. apply Hiff.
      * exfalso. apply H. inversion H0; subst.
        eapply Forall_impl; [eassumption|]. intros p'. apply Hiff.
    + exists s. unfold merge_event, load. rewrite bind_run, Hp.
      rewrite decide_False; [done|].
      intros H. inversion H as [|? ? [? Hs] _]; subst. congruence.
Qed.

Lemma insert_loop_no_panic l batch s :
  (∀ k, uuid_source (world s) k ≠ Panic) →
  Forall (λ ke, is_Some (parseKey ke.1) ∧ is_Some (heap s !! ke.2)) l →
  (for_each_acc add_insert batch l s).1 ≠ Panic.
Proof.
  intros Hu Hl. revert batch s Hu Hl.
  induction l as [|[k q] l IH]; intros batch s Hu Hl; simpl; [done|].
  inversion Hl as [|? ? [[[[[o t] nm] u] Hk] [ev Hq]] Hl']; subst. simpl in *.
  rewrite bind_run.
  destruct (add_insert batch (k, q) s) as [[batch'|err|] s1] eqn:E; simpl; try done.
  - pose proof (add_insert_frame _ _ _ _ _ E) as (Hh & _ & He & _).
    apply environment_faults in He as (He & _).
    apply IH.
    + intros k'. rewrite He. apply Hu.
    + eapply Forall_impl; [exact Hl'|]. intros ke. by rewrite Hh.
  - exfalso. revert E. unfold add_insert. simpl. rewrite Hk.
    unfold RandomUUID, load, time_Now, batch_Query. rewrite !bind_run.
    destruct (uuid_source _ _) as [id|err|] eqn:Eu; try done.
    + rewrite !bind_run. simpl. rewrite Hq. rewrite !bind_run. simpl.
      by destruct (batch_query_fault (world s)).
    + by apply Hu in Eu.
Qed.

Lemma flush_no_panic s :
  (∀ k, uuid_source (world s) k ≠ Panic) → well_formed s →
  (flush s).1 ≠ Panic.
Proof.
  intros Hu [Hb Hk]. unfold flush, get_writer, log_Printf, on_world. rewrite !bind_run.
  pose proof (insert_loop_no_panic (map_to_list (events (writer s))) [] (logged s)) as Hl.
  fold (with_world (set_log (cons (BatchWriting (size (events (writer s)))))) s).
  fold (logged s).
  destruct (for_each_acc add_insert [] _ (logged s)) as [[batch|err|] s1] eqn:E; simpl.
  - rewrite bind_run. unfold ExecuteBatch.
    destruct (execute_fault (world s1)) as [[err applied]|]; [done|].
    rewrite !bind_run. done.
  - done.
  - exfalso. apply Hl; [done| |done].
    apply Forall_forall. intros [k q] Hin%elem_of_map_to_list. simpl.
    split; [by eapply Hk | by eapply Hb].
Qed.

Lemma well_formed_ticked (c : bool) s :
  well_formed s → well_formed (if c then s else with_world (set_readings S) s).
Proof. by destruct c. Qed.

(** X6: from a state in which every buffered key has its four parts and
    points to an event, [Write] panics exactly when a pointer of the entry
    points to no event (a nil dereference); and it leaves such a state
    again, with the same event objects.  (The UUID generator returns or
    fails, it does not panic.) *)
Theorem Write_panics_iff (e : Entry.t) (s : State) :
  well_formed s →
  (∀ k, uuid_source (world s) k ≠ Panic) →
  ((Write e s).1 = Panic ↔ ¬ Forall (λ p, is_Some (heap s !! p)) (Entry.Events e))
  ∧ well_formed (Write e s).2
  ∧ dom (heap (Write e s).2) = dom (heap s).
Proof.
  intros [Hb Hk] Hu.
  destruct (merge_outcome e (Entry.Events e) s Hb) as (sm & E & Hbm & Hd).
  pose proof (merge_keys_parse _ _ _ _ _ E Hk) as Hkm.
  pose proof (merge_frame _ _ _ _ _ E) as (Hw & _).
  unfold Write. rewrite bind_run, E. case_decide as Hv.
  - rewrite flushIfNeeded_run.
    pose proof (maybe_ticked (bool_decide (n (writer sm) < Z.of_nat (size (events (writer sm))))) sm)
      as (Hh & Hwr & _ & _ & _ & He).
    pose proof (well_formed_ticked (bool_decide (n (writer sm) < Z.of_nat (size (events (writer sm))))) sm
                  (conj Hbm Hkm)) as Hwf.
    simpl in Hh, Hwr, He.
    set (sx := if bool_decide _ then sm else _) in *.
    assert (∀ k, uuid_source (world sx) k ≠ Panic) as Hux.
    { apply environment_faults in He as (-> & _). by rewrite Hw. }
    destruct (due_at _ _).
    + pose proof (flush_no_panic sx Hux Hwf) as Hnp.
      destruct (flush sx) as [r s'] eqn:Ef. simpl in *.
      pose proof Ef as (Hh' & _ & _ & Hc)%flush_run.
      split; [split; [done | by intros []]|].
      split; [|congruence].
      assert (writer s' = writer sm ∨ events (writer s') = ∅) as [Hsame|Hempty].
      { destruct Hc as [(_ & -> & _)|(batch & s1 & _ & _ & Hx)]; [by left|].
        destruct (execute_fault (world sx)) as [[err applied]|].
        - destruct Hx as (_ & -> & _). by left.
        - destruct Hx as (_ & -> & _). by right. }
      * split; intros k q; rewrite Hsame; [rewrite Hh', Hh; apply Hbm | apply Hkm].
      * split; intros k q; rewrite Hempty, lookup_empty; done.
    + simpl. split; [split; [done | by intros []]|]. done.
  - simpl. split; [done|]. split; [done|]. done.
Qed.

(** X6, a witness: the round-trip entry, written to a new writer. *)
Lemma Write_panics_iff_witness :
  dom (heap (Write cpu_entry fresh_state).2) = dom (heap fresh_state).
Proof.
  apply (Write_panics_iff cpu_entry fresh_state).
  - split; intros k q; simpl; by rewrite lookup_empty.
  - intros k. simpl. discriminate.
Defined.

(** X7: when [Write] returns, the buffer is empty or holds at most [n] keys:
    either the flush ran and emptied it, or the flush was not due. *)
Theorem Write_buffer_bound (e : Entry.t) (s s' : State) :
  Write e s = (Ret tt, s') →
  events (writer s') = ∅
  ∨ Z.of_nat (size (events (writer s'))) ≤ n (writer s').
Proof.
  unfold Write. rewrite bind_run.
  destruct (for_each _ _ s) as [[[]|err|] sm] eqn:E; try done.
  rewrite flushIfNeeded_run. destruct (due_at _ _) eqn:Hd.
  - intros (_ & _ & _ & Hc)%flush_run. left.
    destruct Hc as [(Hr & _)|(batch & s1 & _ & _ & Hx)]; [done|].
    destruct (execute_fault _) as [[err applied]|].
    + by destruct Hx.
    + by destruct Hx as (_ & -> & _).
  - intros [= <-]. right. simpl.
    unfold due_at in Hd. apply orb_false_iff in Hd as [Hd _].
    apply bool_decide_eq_false in Hd. lia.
Qed.

(** X7, a witness: the write at the boundary, which does not flush. *)
Lemma Write_buffer_bound_witness :
  events (writer (Write cpu_entry boundary_state).2) = ∅
  ∨ Z.of_nat (size (events (writer (Write cpu_entry boundary_state).2)))
    ≤ n (writer (Write cpu_entry boundary_state).2).
Proof.
  apply (Write_buffer_bound cpu_entry boundary_state).
  apply run_eq. vm_compute. reflexivity.
Defined.

(** X8: [Write] only ever appends to the table: the rows stored before are
    all still there, in place, whatever the outcome; and it changes neither
    [n] nor [flushInterval]. *)
Theorem Write_appends_only (e : Entry.t) (s : State) :
  table (world s) `prefix_of` table (world (Write e s).2)
  ∧ n (writer (Write e s).2) = n (writer s)
  ∧ flushInterval (writer (Write e s).2) = flushInterval (writer s).
Proof.
  unfold Write. rewrite bind_run.
  destruct (for_each _ _ s) as [r sm] eqn:E.
  pose proof (merge_frame _ _ _ _ _ E) as (Hw & _ & Hn & Hf).
  destruct r as [[]|err|]; simpl; [|by rewrite Hw, Hn, Hf..].
  rewrite flushIfNeeded_run.
  pose proof (maybe_ticked (bool_decide (n (writer sm) < Z.of_nat (size (events (writer sm))))) sm)
    as (_ & Hwr & Ht & _ & _ & _).
  simpl in Hwr, Ht.
  set (sx := if bool_decide _ then sm else _) in *.
  destruct (due_at _ _).
  - destruct (flush sx) as [r s'] eqn:Ef. simpl.
    apply flush_run in Ef as (_ & _ & _ & Hc).
    destruct Hc as [(_ & Hb & _ & Htab)|(batch & s1 & _ & _ & Hx)].
    + rewrite Htab, Ht, Hb, Hwr, Hw, Hn, Hf. done.
    + destruct (execute_fault (world sx)) as [[err applied]|].
      * destruct Hx as (_ & -> & ->). rewrite Ht, Hwr, Hw, Hn, Hf.
        split; [by eexists|done].
      * destruct Hx as (_ & -> & -> & _). simpl. rewrite Ht, Hwr, Hw, Hn, Hf.
        split; [by eexists|done].
  - simpl. by rewrite Hw, Hn, Hf.
Qed.

(** ** What a flush sends *)

Lemma add_insert_row batch ke s batch' s1 :
  add_insert batch ke s = (Ret batch', s1) →
  ∃ r, batch' = (batch ++ [r])%list ∧ stores (heap s) ke r.
Proof.
  unfold add_insert, panic, RandomUUID, load, time_Now, batch_Query.
  destruct (parseKey ke.1) as [[[[o t] nm] u]|] eqn:Hk; [|done].
  rewrite !bind_run.
  destruct (uuid_source _ _) as [id|err|]; try done.
  rewrite !bind_run. simpl.
  destruct (heap s !! ke.2) as [ev|] eqn:Hq; [|done].
  rewrite !bind_run. simpl.
  destruct (batch_query_fault (world s)); [done|].
  intros [= <- _]. eexists. split; [done|]. exists ev. by rewrite Hk.
Qed.

Lemma insert_loop_rows l batch s batch' s1 :
  for_each_acc add_insert batch l s = (Ret batch', s1) →
  ∃ rows, batch' = (batch ++ rows)%list ∧ Forall2 (stores (heap s)) l rows.
Proof.
  revert batch s. induction l as [|ke l IH]; intros batch s; simpl.
  - intros [= <- _]. exists []. by rewrite app_nil_r.
  - rewrite bind_run.
    destruct (add_insert batch ke s) as [[b1|err|] s2] eqn:E; try done.
    pose proof (add_insert_frame _ _ _ _ _ E) as (Hh & _).
    apply add_insert_row in E as (r & -> & Hr).
    intros (rows & -> & HF)%IH. exists (r :: rows).
    rewrite <- app_assoc. split; [done|]. constructor; [done|]. by rewrite <- Hh.
Qed.

(** X9: a flush that returns has sent one batch and appended it to the
    table, with one row for each key of the buffer: the row holds the four
    parts that [parseKey] reads from the key and the value accumulated in the
    event that the key points to. *)
Theorem flush_one_row_per_key (s s' : State) :
  flushIfNeeded s = (Ret tt, s') →
  log (world s') ≠ log (world s) →
  ∃ batch,
    table (world s') = (table (world s) ++ batch)%list
    ∧ sent (world s') = batch :: sent (world s)
    ∧ length batch = size (events (writer s))
    ∧ Forall2 (stores (heap s)) (map_to_list (events (writer s))) batch.
Proof.
  rewrite flushIfNeeded_run. destruct (due_at _ _); [|by intros [= <-]].
  pose proof (maybe_ticked (bool_decide (n (writer s) < Z.of_nat (size (events (writer s))))) s)
    as (Hh & Hb & Ht & _ & _ & _).
  simpl in Hh, Hb, Ht.
  set (sx := if bool_decide _ then s else _) in *.
  intros (_ & _ & _ & Hc)%flush_run _.
  destruct Hc as [(Hr & _)|(batch & s1 & E & Hs & Hx)]; [done|].
  destruct (execute_fault (world sx)) as [[err applied]|]; [by destruct Hx|].
  destruct Hx as (_ & _ & Htab & _).
  apply insert_loop_rows in E as (rows & -> & HF). simpl in *.
  exists rows. rewrite Htab, Ht, Hs. rewrite Hb, Hh in HF.
  repeat split; try done.
  - by destruct s as [? ? []], (bool_decide _).
  - apply Forall2_length in HF. rewrite <- HF. apply length_map_to_list.
Qed.

(** X9, a witness: the flush of the merged round-trip entry. *)
Lemma flush_one_row_per_key_witness :
  ∃ batch,
    table (world (flushIfNeeded fresh_state_merged).2)
    = (table (world fresh_state_merged) ++ batch)%list
    ∧ sent (world (flushIfNeeded fresh_state_merged).2)
      = batch :: sent (world fresh_state_merged)
    ∧ length batch = size (events (writer fresh_state_merged))
    ∧ Forall2 (stores (heap fresh_state_merged))
        (map_to_list (events (writer fresh_state_merged))) batch.
Proof.
  apply (flush_one_row_per_key fresh_state_merged (flushIfNeeded fresh_state_merged).2).
  - apply run_eq. vm_compute. reflexivity.
  - vm_compute. discriminate.
Defined.

Lemma add_insert_error batch ke s err s1 :
  add_insert batch ke s = (Fail err, s1) →
  (∃ i, uuid_source (world s) i = Fail err) ∨ batch_query_fault (world s) = Some err.
Proof.
  unfold add_insert, panic, RandomUUID, load, time_Now, batch_Query.
  destruct (parseKey ke.1) as [[[[o t] nm] u]|]; [|done].
  rewrite !bind_run.
  destruct (uuid_source _ _) as [id|err'|] eqn:Eu; try done.
  - rewrite !bind_run. simpl.
    destruct (heap s !! ke.2) as [ev|]; [|done].
    rewrite !bind_run. simpl.
    destruct (batch_query_fault (world s)); [|done].
    intros [= <- _]. by right.
  - intros [= <- _]. left. by eexists.
Qed.

Lemma insert_loop_error l batch s err s1 :
  for_each_acc add_insert batch l s = (Fail err, s1) →
  (∃ i, uuid_source (world s) i = Fail err) ∨ batch_query_fault (world s) = Some err.
Proof.
  revert batch s. induction l as [|ke l IH]; intros batch s; simpl; [done|].
  rewrite bind_run.
  destruct (add_insert batch ke s) as [[b1|err'|] s2] eqn:E; try done.
  - pose proof (add_insert_frame _ _ _ _ _ E) as (_ & _ & He & _).
    apply environment_faults in He as (Hu & Hq & _).
    intros H%IH. by rewrite Hu, Hq in H.
  - intros [= <- _]. by eapply add_insert_error.
Qed.

(** X10: [Write] returns an error only from a flush that it attempted, and
    the error is one that the UUID generator, [batch.Query] or
    [ExecuteBatch] returned; whichever it is, the buffer is left as the merge
    of the entry made it, and if no batch reached the store, the table is as
    it was. *)
Theorem Write_error_keeps_buffer (e : Entry.t) (s s' : State) (err : error) :
  Write e s = (Fail err, s') →
  (∃ sm, for_each (merge_event e) (Entry.Events e) s = (Ret tt, sm)
         ∧ writer s' = writer sm ∧ heap s' = heap sm)
  ∧ (∃ k, log (world s') = BatchWriting k :: log (world s))
  ∧ ((∃ i, uuid_source (world s) i = Fail err)
     ∨ batch_query_fault (world s) = Some err
     ∨ ∃ applied, execute_fault (world s) = Some (err, applied))
  ∧ (sent (world s') = sent (world s) → table (world s') = table (world s)).
Proof.
  unfold Write. rewrite bind_run.
  destruct (for_each _ _ s) as [[[]|err'|] sm] eqn:E.
  2:{ intros [= <- <-]. exfalso. revert E. clear. revert s.
      induction (Entry.Events e) as [|p ps IH]; intros s; simpl; [done|].
      rewrite bind_run. destruct (merge_event e p s) as [[[]|err|] s1] eqn:E1.
      - apply IH.
      - exfalso. revert E1. unfold merge_event, load, get_writer, store, put_events.
        rewrite !bind_run. destruct (heap s !! p); [|done]. rewrite !bind_run.
        destruct (events (writer s) !! _) as [q|]; [|done]. rewrite !bind_run.
        by destruct (heap s !! q).
      - done. }
  2:{ done. }
  pose proof (merge_frame _ _ _ _ _ E) as (Hw & _).
  rewrite flushIfNeeded_run.
  pose proof (maybe_ticked (bool_decide (n (writer sm) < Z.of_nat (size (events (writer sm))))) sm)
    as (Hh & Hb & Ht & Hl & _ & He).
  simpl in Hh, Hb, Ht, Hl, He.
  set (sx := if bool_decide _ then sm else _) in *.
  assert (sent (world sx) = sent (world s)) as Hs.
  { subst sx. case_bool_decide; simpl; by rewrite Hw. }
  apply environment_faults in He as (Hu & Hq & Hx & _).
  destruct (due_at _ _); [|done].
  intros Hf. pose proof Hf as (Hh' & _ & Hlog & Hc)%flush_run.
  split; [|split; [|split]].
  - exists sm. split; [done|]. split; [|congruence].
    destruct Hc as [(_ & -> & _)|(batch & s1 & _ & _ & Hc)]; [done|].
    destruct (execute_fault (world sx)) as [[err' applied]|].
    + by destruct Hc as (_ & -> & _).
    + by destruct Hc.
  - eexists. by rewrite Hlog, Hl, Hw.
  - revert Hf. unfold flush, get_writer, log_Printf, on_world. rewrite !bind_run.
    fold (with_world (set_log (cons (BatchWriting (size (events (writer sx)))))) sx).
    fold (logged sx).
    destruct (for_each_acc add_insert [] _ (logged sx)) as [[batch|err'|] s1] eqn:El.
    + pose proof (insert_loop_frame _ _ _ _ _ El) as (_ & _ & He1 & _).
      apply environment_faults in He1 as (_ & _ & Hx1 & _). simpl in Hx1.
      rewrite bind_run. unfold ExecuteBatch. rewrite Hx1, Hx, Hw.
      destruct (execute_fault (world s)) as [[err' applied]|].
      * intros [= <- _]. right. right. by eexists.
      * rewrite !bind_run. done.
    + intros [= <- _]. apply insert_loop_error in El. simpl in El.
      rewrite Hu, Hq, Hw in El. destruct El as [?|?]; [by left | right; by left].
    + done.
  - destruct Hc as [(_ & _ & _ & ->)|(batch & s1 & _ & Hsent & _)].
    + by rewrite Ht, Hw.
    + intros Heq. rewrite Hsent, Hs in Heq.
      apply (f_equal length) in Heq. simpl in Heq. lia.
Qed.

(** X10, a witness: the write of the round-trip entry to a store that
    fails. *)
Lemma Write_error_keeps_buffer_witness :
  ∃ k, log (world (Write cpu_entry fresh_state_failing).2)
       = BatchWriting k :: log (world fresh_state_failing).
Proof.
  apply (Write_error_keeps_buffer cpu_entry fresh_state_failing
           (Write cpu_entry fresh_state_failing).2 "unavailable").
  apply run_eq. vm_compute. reflexivity.
Defined.

(** X11: the one flush interval whose negation overflows, the least
    [int64]: [-1*b.flushInterval] is that interval again, so the flush is due
    by time only when [lastExport] lies more than 2^63 nanoseconds back, as
    for an interval of 2^63 and unlike every other negative interval. *)
Theorem flush_trigger_overflow (s : State) :
  flushInterval (writer s) = minInt64 →
  (∃ k, log (world (flushIfNeeded s).2) = BatchWriting k :: log (world s))
  ↔ n (writer s) < Z.of_nat (size (events (writer s)))
    ∨ lastExport (writer s) + 2 ^ 63 < clock (world s) (readings (world s)).
Proof.
  intros Hi. rewrite flushIfNeeded_log.
  assert (due_at (writer s) (clock (world s) (readings (world s))) = true
          ↔ n (writer s) < Z.of_nat (size (events (writer s)))
            ∨ lastExport (writer s) + 2 ^ 63 < clock (world s) (readings (world s))) as <-.
  { unfold due_at, Time_Before, Time_Add. rewrite Hi.
    rewrite orb_true_iff, bool_decide_eq_true, Z.ltb_lt.
    change (wrap64 (-1 * minInt64)) with (- 2 ^ 63). lia. }
  destruct (due_at _ _).
  - split; [done|]. intros _. by eexists.
  - split; [|done]. intros [k Hk]. apply (f_equal length) in Hk. simpl in Hk. lia.
Qed.

(** X11, a witness: such a writer, below capacity, last flushed at the zero
    [Time] and written to in 1970, flushes. *)
Lemma flush_trigger_overflow_witness :
  ∃ k, log (world (flushIfNeeded
                     (mkState ∅ (mkBatchWriter ∅ zeroTime 10 minInt64) (healthy_world unixEpoch 0))).2)
       = BatchWriting k :: [].
Proof.
  apply (flush_trigger_overflow
           (mkState ∅ (mkBatchWriter ∅ zeroTime 10 minInt64) (healthy_world unixEpoch 0))).
  - reflexivity.
  - right. vm_compute. reflexivity.
Defined.

(** ** What a query answers *)

(** The event that [Query] holds under a key: made of the first scanned row
    of that key, with the values of the later ones added. *)
Lemma scan_entry req rows k e :
  foldl (scan_row req) ∅ rows !! k = Some e
  ↔ ∃ row l, filter (λ r, scan_key req r = k) rows = row :: l
             ∧ e = mkEvent row.1.1 (foldl PrimFloat.add row.1.2 (l.*1.*2)) row.2.
Proof.
  rewrite scan_lookup, lookup_empty.
  destruct (filter _ rows) as [|row l]; simpl.
  - split; [done | by intros (? & ? & ? & _)].
  - rewrite foldl_add_row_Some. simpl. split.
    + intros [= <-]. by eexists _, _.
    + intros (row' & l' & [= <- <-] & ->). done.
Qed.

Lemma scan_entry_row req rows k e :
  foldl (scan_row req) ∅ rows !! k = Some e →
  ∃ row, row ∈ rows ∧ scan_key req row = k ∧ Name e = row.1.1 ∧ Unit e = row.2.
Proof.
  intros (row & l & Hf & ->)%scan_entry. exists row.
  assert (row ∈ filter (λ r, scan_key req r = k) rows) as Hin by (rewrite Hf; left).
  apply list_elem_of_filter in Hin as [Hk Hin]. done.
Qed.


Lemma Query_events w req resp :
  Query w req = Ret resp →
  Events resp ≡ₚ (map_to_list (foldl (scan_row req) ∅ (scanned w req))).*2.
Proof.
  rewrite Query_unfold.
  destruct (cql_fault w _); [done|]. destruct (select_fault w); [done|].
  destruct (sort_Sort_returns (mkEventSorter
              (map_to_list (foldl (scan_row req) ∅ (scanned w req))).*2))
    as (sorter & -> & Hperm & _).
  by intros [= <-].
Qed.

(** X12: an answer of [Query] never holds two events of the same name and
    unit: the rows of one name and unit are always summed into one event. *)
Theorem Query_one_event_per_series (w : World) (req : QueryRequest.t) (resp : QueryResponse) :
  Query w req = Ret resp →
  NoDup ((λ e, (Name e, Unit e)) <$> Events resp).
Proof.
  intros Hq%Query_events. rewrite Hq.
  set (v := foldl (scan_row req) ∅ (scanned w req)).
  apply (NoDup_fmap_1 (λ nu, key (QueryRequest.TraceId req) (QueryRequest.Origin req) nu.1 nu.2)).
  rewrite <- !list_fmap_compose.
  assert (((λ nu, key (QueryRequest.TraceId req) (QueryRequest.Origin req) nu.1 nu.2)
             ∘ (λ e, (Name e, Unit e)) ∘ snd) <$> map_to_list v
          = (map_to_list v).*1) as ->; [|apply NoDup_fst_map_to_list].
  apply list_fmap_ext. intros i [k e] Hi. simpl.
  apply list_elem_of_lookup_2, elem_of_map_to_list in Hi.
  apply scan_entry_row in Hi as (row & _ & <- & -> & ->). done.
Qed.

(** X12, a witness: the query of the round trip. *)
Lemma Query_one_event_per_series_witness :
  NoDup ((λ e, (Name e, Unit e)) <$> Events (mkQueryResponse [mkEvent "cpu" 3 "pct"])).
Proof.
  apply (Query_one_event_per_series two_traces_world (QueryRequest.mk "" "o" "")).
  vm_compute. reflexivity.
Defined.





(** ** Deleting *)










Lemma scanned_ids_elem w f r :
  r ∈ table w → matches f r = true → row_id r ∈ scanned_ids w f.
Proof.
  intros Hin Hm. unfold scanned_ids. apply list_elem_of_fmap. exists r.
  split; [done|]. by apply list_elem_of_filter.
Qed.






(** ** Inserting *)

(** X18: [InsertEvents] writes the entries in order and ends at the first
    one whose escaping or write does not return: it gives that outcome and
    the state as that write left it; the entries written before stay written
    and the entries after it are not looked at. *)
Theorem InsertEvents_first_error
    (Espace : Entry.t → M Entry.t) (es1 es2 : list Entry.t) (e : Entry.t)
    (s s1 s2 : State) (r : outcome unit) :
  InsertEvents Espace (InsertEventsRequest.mk es1) s = (Ret tt, s1) →
  (e' ← Espace e; Write e') s1 = (r, s2) →
  r ≠ Ret tt →
  InsertEvents Espace (InsertEventsRequest.mk (es1 ++ e :: es2)) s = (r, s2).
Proof.
  unfold InsertEvents. simpl. intros H1 H2 Hr.
  rewrite for_each_app, bind_run, H1. simpl. rewrite bind_run, H2.
  destruct r as [[]|err|]; done.
Qed.

(** X18, a witness: an entry without events, an entry that fills the buffer
    of a writer on a failing store, and an entry after it. *)
Lemma InsertEvents_first_error_witness :
  InsertEvents (λ e, mret e)
    (InsertEventsRequest.mk
       ([Entry.mk "o" "t" []] ++ Entry.mk "o" "t" [1%positive] :: [Entry.mk "o" "t" [2%positive]]))
    full_state_failing
  = (Fail "unavailable",
     ((e' ← (λ e, mret e) (Entry.mk "o" "t" [1%positive]); Write e')
        (InsertEvents (λ e, mret e) (InsertEventsRequest.mk [Entry.mk "o" "t" []])
           full_state_failing).2).2).
Proof.
  apply (InsertEvents_first_error (λ e, mret e) [Entry.mk "o" "t" []]
           [Entry.mk "o" "t" [2%positive]] (Entry.mk "o" "t" [1%positive])
           full_state_failing
           (InsertEvents (λ e, mret e) (InsertEventsRequest.mk [Entry.mk "o" "t" []])
              full_state_failing).2).
  - apply run_eq. vm_compute. reflexivity.
  - apply run_eq. vm_compute. reflexivity.
  - done.
Defined.

(** ** Merging the events of several keys *)

Lemma total_add_value vs : foldl add_value None vs = total vs.
Proof.
  destruct vs as [|v vs]; [done|]. simpl. generalize v. clear v.
  induction vs as [|v' vs IH]; intros v; [done|]. simpl. apply IH.
Qed.

Lemma Forall2_heap_frame (h h' : gmap loc Event) ps evs :
  Forall (λ p, h' !! p = h !! p) ps →
  Forall2 (λ p ev, h !! p = Some ev) ps evs →
  Forall2 (λ p ev, h' !! p = Some ev) ps evs.
Proof.
  intros Hf HF. induction HF as [|p ev ps evs Hp _ IH]; [constructor|].
  apply Forall_cons in Hf as [Hx Hf]. constructor; [by rewrite Hx | by apply IH].
Qed.

(** One round of the loop of [Write], in a buffer whose keys point to
    different events, none of them the event of the round. *)
Lemma merge_event_buffered e p ev s :
  buffer_valid s → distinct_objects s → unbuffered s p → heap s !! p = Some ev →
  ∃ s', merge_event e p s = (Ret tt, s')
    ∧ buffer_valid s' ∧ distinct_objects s'
    ∧ (∀ p', p' ≠ p → unbuffered s p' → unbuffered s' p' ∧ heap s' !! p' = heap s !! p')
    ∧ (∀ k, buffered s' k
            = if decide (k = event_key e ev) then add_value (buffered s k) (Value ev)
              else buffered s k).
Proof.
  destruct s as [h [m le n0 fi] w]. unfold buffer_valid, distinct_objects, unbuffered, buffered.
  simpl. intros Hv Hd Hu Hp.
  unfold merge_event, load, get_writer, store, put_events.
  rewrite !bind_run. simpl. rewrite Hp. rewrite !bind_run. simpl.
  fold (event_key e ev). destruct (m !! event_key e ev) as [q|] eqn:Hk.
  - destruct (Hv _ _ Hk) as [v Hq]. rewrite !bind_run. simpl. rewrite Hq. simpl.
    eexists. split; [reflexivity|]. simpl. rewrite (insert_id m) by done.
    split; [|split; [done|split]].
    + intros k q' Hk'. apply lookup_insert_is_Some'. right. by eapply Hv.
    + intros p' Hne Hu'. split; [done|].
      rewrite lookup_insert_ne; [done|]. intros ->. by destruct (Hu' (event_key e ev)).
    + intros k. case_decide as Hkk.
      * subst k. rewrite Hk. simpl. by rewrite lookup_insert_eq, Hq.
      * destruct (m !! k) as [q'|] eqn:Hk'; simpl; [|done].
        rewrite lookup_insert_ne; [done|]. intros ->. apply Hkk. by eapply Hd.
  - eexists. split; [reflexivity|]. simpl. split; [|split; [|split]].
    + intros k q' [[<- <-]|[_ Hk']]%lookup_insert_Some; [by eexists | by eapply Hv].
    + intros k1 k2 q' [[<- <-]|[Hn1 Hk1]]%lookup_insert_Some
                       [[<- Hpq]|[Hn2 Hk2]]%lookup_insert_Some; try done.
      * by destruct (Hu k2).
      * subst q'. by destruct (Hu k1).
      * by eapply Hd.
    + intros p' Hne Hu'. split; [|done].
      intros k [[_ ?]|[_ Hk']]%lookup_insert_Some; [congruence | by destruct (Hu' k)].
    + intros k. case_decide as Hkk.
      * subst k. rewrite lookup_insert_eq, Hk. simpl. by rewrite Hp.
      * by rewrite lookup_insert_ne.
Qed.

(** The loop of [Write] over events that are distinct objects, none of them
    in the buffer. *)
Lemma merge_buffered e ps evs s :
  buffer_valid s → distinct_objects s → NoDup ps → Forall (unbuffered s) ps →
  Forall2 (λ p ev, heap s !! p = Some ev) ps evs →
  ∃ s', for_each (merge_event e) ps s = (Ret tt, s')
    ∧ ∀ k, buffered s' k
           = foldl add_value (buffered s k) (Value <$> filter (λ ev, event_key e ev = k) evs).
Proof.
  revert evs s. induction ps as [|p ps IH]; intros evs s Hv Hd Hnd Hu HF.
  - inversion HF; subst. by eexists.
  - inversion HF as [|? ev ? evs' Hp HF']; subst.
    apply NoDup_cons in Hnd as [Hnin Hnd]. apply Forall_cons in Hu as [Hup Hu].
    destruct (merge_event_buffered e p ev s Hv Hd Hup Hp) as (s1 & E1 & Hv1 & Hd1 & Hrest & Hb1).
    destruct (IH evs' s1) as (s' & E' & Hb'); try done.
    + apply Forall_forall. intros p' Hin. apply Hrest; [|by eapply Forall_forall in Hu].
      intros ->. done.
    + eapply Forall2_heap_frame; [|done]. apply Forall_forall. intros p' Hin.
      apply Hrest; [|by eapply Forall_forall in Hu]. intros ->. done.
    + exists s'. split; [simpl; by rewrite bind_run, E1|].
      intros k. rewrite Hb', Hb1, filter_cons.
      destruct (decide (event_key e ev = k)) as [Hk|Hk]; case_decide; try done; congruence.
Qed.

(** X19: a [Write] that returns without flushing has added the events of
    its entry to the buffer key by key: when the events are distinct objects
    that the buffer does not point to yet, the value buffered under a key is
    the value it had before, if any, with the values of the entry's events of
    that key added from left to right; events of other keys do not touch
    it. *)
Theorem Write_sums_per_key (e : Entry.t) (evs : list Event) (s s' : State) :
  buffer_valid s → distinct_objects s →
  NoDup (Entry.Events e) → Forall (unbuffered s) (Entry.Events e) →
  Forall2 (λ p ev, heap s !! p = Some ev) (Entry.Events e) evs →
  Write e s = (Ret tt, s') → log (world s') = log (world s) →
  ∀ k, buffered s' k
       = foldl add_value (buffered s k) (Value <$> filter (λ ev, event_key e ev = k) evs).
Proof.
  intros Hv Hd Hnd Hu HF Hrun Hlog k.
  destruct (Write_quiet _ _ _ Hrun Hlog) as (sm & Em & ->).
  destruct (merge_buffered e _ evs s Hv Hd Hnd Hu HF) as (sm' & Em' & Hb).
  rewrite Em in Em'. injection Em' as <-. apply Hb.
Qed.

(** X19, a witness: a cpu event, a mem event and a second cpu event, written
    to an empty buffer: the key of cpu holds the two cpu values. *)
Lemma Write_sums_per_key_witness :
  buffered (Write mixed_entry mixed_state).2 "o:t:cpu:pct"
  = foldl add_value (buffered mixed_state "o:t:cpu:pct")
      (Value <$> filter (λ ev, event_key mixed_entry ev = "o:t:cpu:pct")
                   [mkEvent "cpu" 1 "pct"; mkEvent "mem" 5 "mb"; mkEvent "cpu" 2 "pct"]).
Proof.
  apply (Write_sums_per_key mixed_entry
           [mkEvent "cpu" 1 "pct"; mkEvent "mem" 5 "mb"; mkEvent "cpu" 2 "pct"]
           mixed_state (Write mixed_entry mixed_state).2).
  - intros k q Hk. unfold mixed_state in Hk. simpl in Hk. by rewrite lookup_empty in Hk.
  - intros k1 k2 q Hk. unfold mixed_state in Hk. simpl in Hk. by rewrite lookup_empty in Hk.
  - apply (bool_decide_unpack _). vm_compute. exact I.
  - repeat constructor; intros k; unfold mixed_state; simpl; by rewrite lookup_empty.
  - by repeat constructor.
  - apply run_eq. vm_compute. reflexivity.
  - vm_compute. reflexivity.
Defined.
